(** * pprm.py: the Probabilistic Phonological Relationship Model for German

    A shallow embedding of [pprm.py] and the properties of it that the
    design document states.

    Conventions of the embedding.
    - A Python [str] is a [string]; symbols outside ASCII are written in
      UTF-8.  A prefix test on UTF-8 bytes agrees with the prefix test on
      code points, and the first byte of a string is an ASCII letter exactly
      when its first code point is, so [startswith] and [phone[0] in vowels]
      are unaffected by the encoding.
    - A Python [int] is a [Z].  A Python [float] is idealised as a real
      number: [/] on two ints is the exact quotient and [math.log2] the exact
      logarithm.  Rounding is outside the model.
    - A [dict] is a [gmap], a [set] a [gset].  Summation over the reals does
      not depend on the order in which a dict is traversed.
    - A Python exception is the [Raise] outcome of the result monad [res]. *)

From Stdlib Require Import Reals Lra Lia ZArith String Ascii List.
From stdpp Require Import gmap strings list fin_maps.

Local Open Scope string_scope.
Local Open Scope Z_scope.
Local Open Scope list_scope.

(** ** Python primitives *)

Module Py.

Inductive exn : Set := IndexError | KeyError | ZeroDivisionError | ValueError.

Inductive res (A : Type) : Type :=
| Ok (a : A)
| Raise (e : exn).
Arguments Ok {A} a.
Arguments Raise {A} e.

#[global] Instance exn_eq_dec : EqDecision exn.
Proof. solve_decision. Defined.
#[global] Instance res_eq_dec {A} `{EqDecision A} : EqDecision (res A).
Proof. solve_decision. Defined.

#[global] Instance res_ret : MRet res := fun A a => Ok a.
#[global] Instance res_bind : MBind res := fun A B f m =>
  match m with
  | Ok a => f a
  | Raise e => Raise e
  end.

(** [len(l)] *)
Definition len {A} (l : list A) : Z := Z.of_nat (length l).

(** [l[i]]: a negative index counts from the end; out of range raises. *)
Definition getitem {A} (l : list A) (i : Z) : res A :=
  let j := if i <? 0 then i + len l else i in
  if (0 <=? j) && (j <? len l) then
    match l !! Z.to_nat j with
    | Some a => Ok a
    | None => Raise IndexError
    end
  else Raise IndexError.

(** [s[i]] on a string: the one-character string at that position. *)
Definition str_getitem (s : string) (i : Z) : res string :=
  c ← getitem (list_ascii_of_string s) i; mret (String c EmptyString).

(** [d[k]] on a dict: a missing key raises. *)
Definition dict_get {V} (d : gmap string V) (k : string) : res V :=
  match d !! k with
  | Some v => Ok v
  | None => Raise KeyError
  end.

(** The keys of a dict, as a [for k in d] loop visits them. *)
Definition keys {V} (d : gmap string V) : list string := (map_to_list d).*1.

(** [a / b] on two ints: true division. *)
Definition truediv (a b : Z) : res R :=
  if b =? 0 then Raise ZeroDivisionError else Ok (IZR a / IZR b)%R.

(** [math.log2(x)]: a domain error outside the positive reals. *)
Definition log2 (x : R) : res R :=
  if Rlt_dec 0 x then Ok (ln x / ln 2)%R else Raise ValueError.

(** [s.split(sep)] for a one-character separator. *)
Fixpoint split (sep : ascii) (s : string) : list string :=
  match s with
  | EmptyString => [EmptyString]
  | String c s' =>
      if Ascii.eqb c sep then EmptyString :: split sep s'
      else match split sep s' with
           | [] => [String c EmptyString]
           | t :: ts => String c t :: ts
           end
  end.

(** [enumerate(l)], counting from [k]. *)
Fixpoint enumerate_from {A} (k : Z) (l : list A) : list (Z * A) :=
  match l with
  | [] => []
  | a :: l' => (k, a) :: enumerate_from (k + 1) l'
  end.

Definition enumerate {A} (l : list A) : list (Z * A) := enumerate_from 0 l.

(** A [for] loop whose body updates a state and may raise. *)
Fixpoint for_each {A S} (l : list A) (body : S → A → res S) (s : S) : res S :=
  match l with
  | [] => Ok s
  | a :: l' => s' ← body s a; for_each l' body s'
  end.

End Py.

Import Py.

(** ** Utility functions *)

Definition vowels : list string :=
  ["a";"A";"e";"E";"i";"I";"o";"O";"u";"U";"y";"Y";"2";"9";"@";"3";"aI";"aU";"OY"].

Definition is_vowel (phone : string) : res bool :=
  c ← str_getitem phone 0; mret (bool_decide (c ∈ vowels)).

Definition front_vowels : list string :=
  ["i";"I";"e";"E";"y";"Y";"2";"9";"e:";"i:";"ø";"œ";"æ"].

Definition is_front_vowel (phone : string) : bool :=
  existsb (fun vf => String.prefix vf phone) front_vowels.

Definition back_vowels : list string :=
  ["a";"A";"o";"O";"u";"U";"o:";"u:";"ɔ";"ʊ";"ɑ"].

Definition is_back_vowel (phone : string) : bool :=
  existsb (fun vb => String.prefix vb phone) back_vowels.

Definition nonempty (t : string) : bool :=
  match t with EmptyString => false | _ => true end.

Definition phone_sequence (cpsampa : string) : list string :=
  let tokens := split "." cpsampa in
  filter (fun t => nonempty t = true) tokens.

Definition shannon_entropy (prob1 prob2 : R) : res R :=
  let H := 0%R in
  H ← (if Rlt_dec 0 prob1
       then l ← log2 prob1; Ok (H - prob1 * l)%R
       else Ok H);
  H ← (if Rlt_dec 0 prob2
       then l ← log2 prob2; Ok (H - prob2 * l)%R
       else Ok H);
  mret H.

(** ** Environment classifiers for German *)

Definition env_x_c (phones : list string) (i : Z) : res string :=
  if i =? 0 then mret "WordInitial"
  else
    prev_phone ← getitem phones (i - 1);
    if i =? len phones - 1 then
      if is_back_vowel prev_phone
      then mret "WordFinal_AfterBackVowel"
      else mret "WordFinal_AfterFrontOrCons"
    else
      if is_back_vowel prev_phone
      then mret "Medial_AfterBackVowel"
      else mret "Medial_AfterFrontOrCons".

Definition env_s_S (phones : list string) (i : Z) : res string :=
  if i =? 0 then
    if 1 <? len phones then
      next ← getitem phones (i + 1);
      if bool_decide (next ∈ ["p"; "t"])
      then mret "WordInitial_s_plus_stop"
      else mret "WordInitial_s_alone"
    else mret "WordInitial_s_alone"
  else if i =? len phones - 1 then mret "WordFinal"
  else mret "WordMedial".

Definition env_d_t (phones : list string) (i : Z) : res string :=
  if i =? 0 then mret "WordInitial"
  else if i =? len phones - 1 then mret "WordFinal"
  else
    left ← getitem phones (i - 1);
    right ← getitem phones (i + 1);
    lv ← is_vowel left;
    both ← (if (lv : bool) then is_vowel right else Ok false);
    if (both : bool) then mret "Intervocalic_V_V" else mret "ClusterOrOther".

(** ** The PPRM algorithm *)

(** One row of the data frame: the columns [Word], [Phono], [Frequency]. *)
Record WordRecord : Type := {
  Word : string;
  Phono : string;
  Frequency : Z
}.

(** The three dicts that the scan of [pprm_for_pair] fills. *)
Record counts : Type := {
  counts_type : gmap string (gmap string Z);
  counts_token : gmap string (gmap string Z);
  counts_type_tracker : gmap string (gmap string (gset string))
}.

Definition no_counts : counts :=
  {| counts_type := ∅; counts_token := ∅; counts_type_tracker := ∅ |}.

(** [d[env][ph]] *)
Definition cell_get {V} (d : gmap string (gmap string V)) (env ph : string)
  : res V :=
  row ← dict_get d env; dict_get row ph.

(** [d[env][ph] = f(d[env][ph])]: the inner dict is updated in place. *)
Definition cell_update {V} (d : gmap string (gmap string V)) (env ph : string)
    (f : V → V) : res (gmap string (gmap string V)) :=
  row ← dict_get d env;
  v ← dict_get row ph;
  mret (<[env := <[ph := f v]> row]> d).

Section pprm.

Variables phoneX phoneY : string.
Variable env_function : list string → Z → res string.

Definition ensure_env (env : string) (c : counts) : counts :=
  if bool_decide (env ∉ dom (counts_type c)) then
    {| counts_type := <[env := <[phoneY := 0]> {[phoneX := 0]}]> (counts_type c);
       counts_token := <[env := <[phoneY := 0]> {[phoneX := 0]}]> (counts_token c);
       counts_type_tracker :=
         <[env := <[phoneY := ∅]> {[phoneX := ∅]}]> (counts_type_tracker c) |}
  else c.

(** The lines under [# Type frequency]: the type count of the cell grows
    only when the word is not yet in the cell's tracker set. *)
Definition count_type (word_str env_label ph : string) (c : counts)
  : res counts :=
  seen ← cell_get (counts_type_tracker c) env_label ph;
  if bool_decide (word_str ∉ seen) then
    ct ← cell_update (counts_type c) env_label ph (fun n => n + 1);
    tr ← cell_update (counts_type_tracker c) env_label ph
           (fun s => s ∪ {[word_str]});
    Ok {| counts_type := ct;
          counts_token := counts_token c;
          counts_type_tracker := tr |}
  else Ok c.

(** The line under [# Token frequency]. *)
Definition count_token (freq : Z) (env_label ph : string) (c : counts)
  : res counts :=
  ck ← cell_update (counts_token c) env_label ph (fun n => n + freq);
  Ok {| counts_type := counts_type c;
        counts_token := ck;
        counts_type_tracker := counts_type_tracker c |}.

(** The body of the loop over [enumerate(phones)]. *)
Definition visit (word_str : string) (freq : Z) (phones : list string)
    (c : counts) (iph : Z * string) : res counts :=
  let '(i, ph) := iph in
  if bool_decide (ph = phoneX) || bool_decide (ph = phoneY) then
    env_label ← env_function phones i;
    let c := ensure_env env_label c in
    c ← count_type word_str env_label ph c;
    count_token freq env_label ph c
  else Ok c.

(** The body of the loop over the rows of the data frame. *)
Definition scan_row (c : counts) (row : WordRecord) : res counts :=
  let word_str := Word row in
  let phono_str := Phono row in
  let freq := Frequency row in
  let phones := phone_sequence phono_str in
  for_each (enumerate phones) (visit word_str freq phones) c.

Definition scan (df : list WordRecord) : res counts :=
  for_each df scan_row no_counts.

(** [total += d[env][phoneX] + d[env][phoneY]] over the environments of [d]. *)
Definition total_of (d : gmap string (gmap string Z)) : res Z :=
  for_each (keys d)
    (fun total env =>
       x ← cell_get d env phoneX;
       y ← cell_get d env phoneY;
       Ok (total + (x + y)))
    0.

(** One counting scheme of the loop that determines the entropies: the
    entropy dict and the probability dict after environment [env]. *)
Definition env_entropy (d : gmap string (gmap string Z)) (total : Z)
    (acc : gmap string R * gmap string R) (env : string)
  : res (gmap string R * gmap string R) :=
  let '(env_entropies, env_probs) := acc in
  X ← cell_get d env phoneX;
  Y ← cell_get d env phoneY;
  if 0 <? X + Y then
    pX ← truediv X (X + Y);
    let pY := (1 - pX)%R in
    H ← shannon_entropy pX pY;
    p ← truediv (X + Y) total;
    Ok (<[env := H]> env_entropies, <[env := p]> env_probs)
  else Ok acc.

(** The four dicts [env_entropies_type], [env_probs_type],
    [env_entropies_token], [env_probs_token]. *)
Definition entropies_state : Type :=
  (gmap string R * gmap string R) * (gmap string R * gmap string R).

Definition determine_entropies (c : counts) (total_types total_tokens : Z)
  : res entropies_state :=
  for_each (keys (counts_type c))
    (fun (acc : entropies_state) env =>
       ty ← env_entropy (counts_type c) total_types acc.1 env;
       tk ← env_entropy (counts_token c) total_tokens acc.2 env;
       Ok (ty, tk))
    ((∅, ∅), (∅, ∅)).

(** [overall += env_probs[env] * env_entropies[env]] over [env_entropies]. *)
Definition overall_entropy (env_entropies env_probs : gmap string R) : res R :=
  for_each (keys env_entropies)
    (fun overall env =>
       p ← dict_get env_probs env;
       H ← dict_get env_entropies env;
       Ok (overall + p * H)%R)
    0%R.

Record PairResult : Type := {
  pair : string;
  type_entropy : R;
  token_entropy : R;
  env_type_counts : gmap string (gmap string Z);
  env_token_counts : gmap string (gmap string Z);
  env_type_entropies : gmap string R;
  env_token_entropies : gmap string R;
  env_type_probs : gmap string R;
  env_token_probs : gmap string R
}.

Definition pprm_for_pair (df : list WordRecord) : res PairResult :=
  c ← scan df;
  (* Compute entropies *)
  total_types ← total_of (counts_type c);
  total_tokens ← total_of (counts_token c);
  '((env_entropies_type, env_probs_type),
    (env_entropies_token, env_probs_token)) ←
      determine_entropies c total_types total_tokens;
  overall_entropy_type ← overall_entropy env_entropies_type env_probs_type;
  overall_entropy_token ← overall_entropy env_entropies_token env_probs_token;
  Ok {| pair := "[" +:+ phoneX +:+ "]~[" +:+ phoneY +:+ "]";
        type_entropy := overall_entropy_type;
        token_entropy := overall_entropy_token;
        env_type_counts := counts_type c;
        env_token_counts := counts_token c;
        env_type_entropies := env_entropies_type;
        env_token_entropies := env_entropies_token;
        env_type_probs := env_probs_type;
        env_token_probs := env_probs_token |}.

End pprm.

(** * Vocabulary of the specification *)

(** The environment labels of the three classifiers. *)
Definition labels_x_c : list string :=
  ["WordInitial"; "WordFinal_AfterBackVowel"; "WordFinal_AfterFrontOrCons";
   "Medial_AfterBackVowel"; "Medial_AfterFrontOrCons"].
Definition labels_s_S : list string :=
  ["WordInitial_s_plus_stop"; "WordInitial_s_alone"; "WordFinal"; "WordMedial"].
Definition labels_d_t : list string :=
  ["WordInitial"; "WordFinal"; "Intervocalic_V_V"; "ClusterOrOther"].

(** The data model asks for non-negative frequencies. *)
Definition wf_dataset (df : list WordRecord) : Prop :=
  Forall (λ row, 0 ≤ Frequency row) df.

(** The sum of a list of integers, and of a list of reals. *)
Definition sumZ (l : list Z) : Z := foldr Z.add 0 l.
Definition sumR (l : list R) : R := foldr Rplus 0%R l.

(** A count read from a count dict, 0 where the dict has no such cell. *)
Definition count_of (d : gmap string (gmap string Z)) (env ph : string) : Z :=
  match d !! env with
  | Some row => default 0 (row !! ph)
  | None => 0
  end.

Section vocabulary.

Variables phoneX phoneY : string.
Variable env_function : list string → Z → res string.

(** The positions of a row's phone sequence that hold phone [ph] and that
    the classifier puts in environment [env]. *)
Definition positions_of (env ph : string) (row : WordRecord)
  : list (Z * string) :=
  let phones := phone_sequence (Phono row) in
  filter (λ ip, ip.2 = ph ∧ env_function phones ip.1 = Ok env)
         (enumerate phones).

(** The distinct words that contribute phone [ph] in environment [env]. *)
Definition contributing_words (env ph : string) (df : list WordRecord)
  : gset string :=
  list_to_set (Word <$> filter (λ row, positions_of env ph row ≠ []) df).

(** The frequency of each row, once per qualifying position. *)
Definition token_mass (env ph : string) (df : list WordRecord) : Z :=
  sumZ ((λ row, Frequency row * len (positions_of env ph row)) <$> df).

(** The combined count [d[env][phoneX] + d[env][phoneY]]. *)
Definition combined (d : gmap string (gmap string Z)) (env : string) : Z :=
  count_of d env phoneX + count_of d env phoneY.

(** The weights [p(env)] summed over the environments that have an
    entropy. *)
Definition weight_sum (env_entropies env_probs : gmap string R) : R :=
  sumR ((λ env, default 0%R (env_probs !! env)) <$> keys env_entropies).

End vocabulary.

(** An entropy slot that reports "no data": binary entropies lie in
    [[0, 1]], so a sentinel is a number outside that range. *)
Definition entropy_undefined (h : R) : Prop := ¬ (0 <= h <= 1)%R.

(** * Properties *)

(** ** Evaluation of the result monad and of list indexing *)

Lemma bind_Ok {A B} (m : res A) (f : A → res B) (b : B) :
  m ≫= f = Ok b ↔ ∃ a, m = Ok a ∧ f a = Ok b.
Proof.
  destruct m as [a|e]; simpl; split.
  - intros H; exists a; auto.
  - intros (a' & [= <-] & H); exact H.
  - discriminate.
  - intros (a' & [=] & _).
Qed.

Lemma getitem_in_range {A} (l : list A) (i : Z) :
  0 ≤ i < len l → ∃ a, getitem l i = Ok a ∧ l !! Z.to_nat i = Some a.
Proof.
  intros [Hlo Hhi]. unfold getitem, len in *.
  destruct (Z.ltb_spec i 0) as [?|_]; [lia|].
  destruct (Z.leb_spec 0 i) as [_|?]; [|lia].
  destruct (Z.ltb_spec i (Z.of_nat (length l))) as [_|?]; [|lia].
  simpl. destruct (l !! Z.to_nat i) as [a|] eqn:E.
  - exists a; auto.
  - apply lookup_ge_None in E. lia.
Qed.

Lemma is_vowel_nonempty (c : ascii) (rest : string) :
  is_vowel (String c rest) = Ok (bool_decide (String c "" ∈ vowels)).
Proof. reflexivity. Qed.

(** ** The phone classifiers *)

(** C3, as stated, fails at the empty string: [is_vowel] reads [phone[0]],
    which raises [IndexError] there, so no boolean is returned. *)
Lemma is_vowel_empty_string_raises :
  is_vowel "" = Raise IndexError ∧ ¬ ∃ b : bool, is_vowel "" = Ok b.
Proof. split; [reflexivity|]. intros [b Hb]. discriminate Hb. Qed.

(** C3, amended: on every non-empty string [is_vowel] returns a boolean, true
    exactly when the first character is one of the listed vowel symbols;
    [is_front_vowel] and [is_back_vowel] are booleans on every string, true
    exactly when some listed symbol is a prefix, hence false for the empty
    string and for every unrecognised symbol. *)
Theorem phone_classifiers_total (phone : string) :
  phone ≠ "" →
  (∃ b : bool, is_vowel phone = Ok b ∧
     (b = true ↔ ∃ c rest, phone = String c rest ∧ String c "" ∈ vowels)) ∧
  (is_front_vowel phone = true ↔
     ∃ vf, vf ∈ front_vowels ∧ String.prefix vf phone = true) ∧
  (is_back_vowel phone = true ↔
     ∃ vb, vb ∈ back_vowels ∧ String.prefix vb phone = true) ∧
  is_front_vowel "" = false ∧ is_back_vowel "" = false.
Proof.
  intros Hne. repeat split; try reflexivity.
  - destruct phone as [|c rest]; [congruence|].
    exists (bool_decide (String c "" ∈ vowels)). split; [apply is_vowel_nonempty|].
    rewrite bool_decide_eq_true. split.
    + intros Hin. exists c, rest. auto.
    + intros (c' & rest' & [= <- <-] & Hin). exact Hin.
  - unfold is_front_vowel. rewrite existsb_exists.
    intros (vf & Hin & Hp). exists vf. rewrite list_elem_of_In. auto.
  - unfold is_front_vowel. rewrite existsb_exists.
    intros (vf & Hin & Hp). exists vf. rewrite <- list_elem_of_In. auto.
  - unfold is_back_vowel. rewrite existsb_exists.
    intros (vb & Hin & Hp). exists vb. rewrite list_elem_of_In. auto.
  - unfold is_back_vowel. rewrite existsb_exists.
    intros (vb & Hin & Hp). exists vb. rewrite <- list_elem_of_In. auto.
Qed.

Lemma phone_classifiers_total_witness :
  "aI" ≠ "" ∧ ∃ b : bool, is_vowel "aI" = Ok b.
Proof.
  assert (Hne : "aI" ≠ "") by discriminate.
  split; [exact Hne|].
  destruct (phone_classifiers_total "aI" Hne) as [(b & Hb & _) _].
  exists b. exact Hb.
Defined.

(** ** The environment classifiers *)

(** C5: in a one-phone word the index-0 branch decides: [env_s_S] answers
    [WordInitial_s_alone] for the sequence [["s"]] (and for every other
    one-phone sequence), and [env_d_t] answers [WordInitial] for every
    one-phone sequence, although index 0 is also the last index. *)
Theorem one_phone_word_is_initial :
  env_s_S ["s"] 0 = Ok "WordInitial_s_alone" ∧
  (∀ ph : string, 0 = len [ph] - 1 ∧
     env_s_S [ph] 0 = Ok "WordInitial_s_alone" ∧
     env_d_t [ph] 0 = Ok "WordInitial").
Proof. split; [reflexivity|]. intros ph. repeat split. Qed.

(** C10: [env_x_c] answers [WordInitial] at index 0 of every one-phone
    sequence; it does so for every sequence at index 0, the empty one
    included, so the preceding phone is never looked up there. *)
Theorem env_x_c_initial_first :
  (∀ ph : string, env_x_c [ph] 0 = Ok "WordInitial") ∧
  (∀ phones : list string, env_x_c phones 0 = Ok "WordInitial").
Proof. split; reflexivity. Qed.

Lemma env_x_c_in_range (phones : list string) (i : Z) :
  0 ≤ i < len phones → ∃ e, env_x_c phones i = Ok e ∧ e ∈ labels_x_c.
Proof.
  intros Hi. unfold env_x_c, labels_x_c.
  destruct (Z.eqb_spec i 0) as [->|Hi0]; [eexists; split; [reflexivity|set_solver]|].
  destruct (getitem_in_range phones (i - 1)) as (prev & -> & _); [lia|]. simpl.
  destruct (i =? len phones - 1), (is_back_vowel prev);
    eexists; (split; [reflexivity|set_solver]).
Qed.

Lemma env_s_S_in_range (phones : list string) (i : Z) :
  0 ≤ i < len phones → ∃ e, env_s_S phones i = Ok e ∧ e ∈ labels_s_S.
Proof.
  intros Hi. unfold env_s_S, labels_s_S.
  destruct (Z.eqb_spec i 0) as [->|Hi0].
  - destruct (Z.ltb_spec 1 (len phones)) as [Hlen|Hlen].
    + destruct (getitem_in_range phones (0 + 1)) as (next & -> & _); [lia|]. simpl.
      destruct (bool_decide _); eexists; (split; [reflexivity|set_solver]).
    + eexists; split; [reflexivity|set_solver].
  - destruct (i =? len phones - 1); eexists; (split; [reflexivity|set_solver]).
Qed.

Lemma env_d_t_in_range (phones : list string) (i : Z) :
  Forall (λ ph, ph ≠ "") phones →
  0 ≤ i < len phones → ∃ e, env_d_t phones i = Ok e ∧ e ∈ labels_d_t.
Proof.
  intros Hne Hi. unfold env_d_t, labels_d_t.
  destruct (Z.eqb_spec i 0) as [->|Hi0]; [eexists; split; [reflexivity|set_solver]|].
  destruct (Z.eqb_spec i (len phones - 1)) as [->|Hlast];
    [eexists; split; [reflexivity|set_solver]|].
  destruct (getitem_in_range phones (i - 1)) as (l & -> & Hl); [lia|].
  destruct (getitem_in_range phones (i + 1)) as (r & -> & Hr); [lia|]. simpl.
  rewrite Forall_lookup in Hne.
  pose proof (Hne _ _ Hl) as Hl0. pose proof (Hne _ _ Hr) as Hr0.
  destruct l as [|cl restl]; [congruence|].
  destruct r as [|cr restr]; [congruence|].
  rewrite !is_vowel_nonempty. simpl.
  destruct (bool_decide (String cl "" ∈ vowels)); simpl;
    [destruct (bool_decide (String cr "" ∈ vowels))|];
    eexists; (split; [reflexivity|set_solver]).
Qed.

(** C9: on a list of non-empty phones and an index inside it, each of the
    three classifiers returns one of its environment labels; no list access
    raises [IndexError]. *)
Theorem classifiers_in_range (phones : list string) (i : Z) :
  Forall (λ ph, ph ≠ "") phones →
  0 ≤ i < len phones →
  (∃ e, env_x_c phones i = Ok e ∧ e ∈ labels_x_c) ∧
  (∃ e, env_s_S phones i = Ok e ∧ e ∈ labels_s_S) ∧
  (∃ e, env_d_t phones i = Ok e ∧ e ∈ labels_d_t).
Proof.
  intros Hne Hi. split; [|split].
  - by apply env_x_c_in_range.
  - by apply env_s_S_in_range.
  - by apply env_d_t_in_range.
Qed.

Lemma classifiers_in_range_witness :
  ∃ e, env_d_t ["h"; "a"; "d"; "@"; "n"] 2 = Ok e ∧ e ∈ labels_d_t.
Proof.
  refine (proj2 (proj2 (classifiers_in_range ["h"; "a"; "d"; "@"; "n"] 2 _ _))).
  - repeat constructor; discriminate.
  - unfold len; simpl; lia.
Defined.

(** ** The entropy calculator *)

Section entropy.

Local Open Scope R_scope.

(** The binary logarithm, and the term [p·log2 p] with the convention that
    it is 0 when [p] is not positive. *)
Definition log2r (x : R) : R := ln x / ln 2.

Definition plog2 (p : R) : R := if Rlt_dec 0 p then p * log2r p else 0.

(** [x·ln x], extended by 0. *)
Definition xlnx (x : R) : R := if Rlt_dec 0 x then x * ln x else 0.

Lemma ln2_pos : 0 < ln 2.
Proof. pose proof ln_lt_2. lra. Qed.

Lemma plog2_xlnx (p : R) : plog2 p = xlnx p / ln 2.
Proof.
  unfold plog2, xlnx, log2r. pose proof ln2_pos.
  destruct (Rlt_dec 0 p); field; lra.
Qed.

Lemma log2_pos (x : R) : 0 < x → log2 x = Ok (log2r x).
Proof. intros Hx. unfold log2. destruct (Rlt_dec 0 x); [reflexivity|lra]. Qed.

Lemma shannon_entropy_eq (p1 p2 : R) :
  shannon_entropy p1 p2 = Ok (0 - plog2 p1 - plog2 p2).
Proof.
  unfold shannon_entropy, plog2.
  destruct (Rlt_dec 0 p1) as [H1|H1], (Rlt_dec 0 p2) as [H2|H2];
    rewrite ?(log2_pos _ H1), ?(log2_pos _ H2); simpl;
    rewrite ?(log2_pos _ H2); simpl; f_equal; lra.
Qed.

Lemma ln_below_tangent (z : R) : 0 < z → z ≠ 1 → ln z < z - 1.
Proof.
  intros Hz Hne.
  assert (Hexp : z < exp (z - 1)).
  { pose proof (exp_ineq1 (z - 1)) as H. lapply H; [lra|lra]. }
  pose proof (ln_increasing _ _ Hz Hexp) as Hln.
  rewrite ln_exp in Hln. exact Hln.
Qed.

Lemma xlnx_tangent (m x : R) :
  0 < m → 0 <= x → x ≠ m → x * ln m - xlnx x < m - x.
Proof.
  intros Hm Hx Hne. unfold xlnx.
  destruct (Rlt_dec 0 x) as [Hpos|Hnpos]; [|replace x with 0 by lra; lra].
  assert (Hq : 0 < m / x) by (apply Rdiv_lt_0_compat; lra).
  assert (Hq1 : m / x ≠ 1).
  { intros Heq. apply Hne. apply (f_equal (λ y, y * x)) in Heq.
    field_simplify in Heq; lra. }
  pose proof (ln_below_tangent _ Hq Hq1) as Hln.
  unfold Rdiv in Hln at 1.
  rewrite ln_mult, ln_Rinv in Hln by (try apply Rinv_0_lt_compat; lra).
  assert (Hmul : x * (ln m + - ln x) < x * (m / x - 1))
    by (apply Rmult_lt_compat_l; lra).
  replace (x * (m / x - 1)) with (m - x) in Hmul by (field; lra).
  lra.
Qed.

Lemma xlnx_strictly_convex (a b t : R) :
  0 <= a → 0 <= b → a ≠ b → 0 < t < 1 →
  xlnx (t * a + (1 - t) * b) < t * xlnx a + (1 - t) * xlnx b.
Proof.
  intros Ha Hb Hab Ht.
  set (m := t * a + (1 - t) * b).
  assert (Hm : 0 < m) by (unfold m; nra).
  assert (Ham : a ≠ m) by (unfold m; nra).
  assert (Hbm : b ≠ m) by (unfold m; nra).
  pose proof (xlnx_tangent m a Hm Ha Ham) as Ta.
  pose proof (xlnx_tangent m b Hm Hb Hbm) as Tb.
  assert (Em : xlnx m = m * ln m).
  { unfold xlnx. destruct (Rlt_dec 0 m); [reflexivity|lra]. }
  rewrite Em.
  assert (Hsum : t * (a * ln m - xlnx a) + (1 - t) * (b * ln m - xlnx b)
                 < t * (m - a) + (1 - t) * (m - b)).
  { apply Rplus_lt_compat; apply Rmult_lt_compat_l; lra. }
  replace (t * (m - a) + (1 - t) * (m - b)) with 0 in Hsum by (unfold m; ring).
  replace (m * ln m) with ((t * a + (1 - t) * b) * ln m) by reflexivity.
  lra.
Qed.

(** C7: [shannon_entropy] is [-(p1·log2 p1 + p2·log2 p2)], where a term whose
    probability is 0 counts as 0 and [log2] is never evaluated outside its
    domain; on [(p, 1-p)] with [0 <= p <= 1] it is symmetric, 0 at [p = 0] and
    [p = 1], 1 at [p = 1/2], and strictly concave. *)
Theorem shannon_entropy_properties :
  (∀ p1 p2, 0 < p1 → 0 < p2 →
     shannon_entropy p1 p2 = Ok (- (p1 * log2r p1 + p2 * log2r p2))) ∧
  (∀ p, 0 < p →
     shannon_entropy 0 p = Ok (- (p * log2r p)) ∧
     shannon_entropy p 0 = Ok (- (p * log2r p))) ∧
  shannon_entropy 0 0 = Ok 0 ∧
  (∀ p, 0 <= p <= 1 → shannon_entropy p (1 - p) = shannon_entropy (1 - p) p) ∧
  shannon_entropy 0 (1 - 0) = Ok 0 ∧
  shannon_entropy 1 (1 - 1) = Ok 0 ∧
  shannon_entropy (1 / 2) (1 - 1 / 2) = Ok 1 ∧
  (∀ a b t, 0 <= a → a < b → b <= 1 → 0 < t < 1 →
     ∃ Ha Hb Hm,
       shannon_entropy a (1 - a) = Ok Ha ∧
       shannon_entropy b (1 - b) = Ok Hb ∧
       shannon_entropy (t * a + (1 - t) * b) (1 - (t * a + (1 - t) * b)) = Ok Hm ∧
       t * Ha + (1 - t) * Hb < Hm).
Proof.
  pose proof ln2_pos as Hln2.
  assert (P0 : plog2 0 = 0).
  { unfold plog2. destruct (Rlt_dec 0 0); lra. }
  assert (P1 : plog2 1 = 0).
  { unfold plog2, log2r. destruct (Rlt_dec 0 1); [|lra]. rewrite ln_1. field. lra. }
  assert (Ppos : ∀ p, 0 < p → plog2 p = p * log2r p).
  { intros p Hp. unfold plog2. destruct (Rlt_dec 0 p); [reflexivity|lra]. }
  repeat split.
  - intros p1 p2 H1 H2. rewrite shannon_entropy_eq, !Ppos by assumption.
    f_equal. lra.
  - rewrite shannon_entropy_eq, P0, Ppos by assumption. f_equal. lra.
  - rewrite shannon_entropy_eq, P0, Ppos by assumption. f_equal. lra.
  - rewrite shannon_entropy_eq, P0. f_equal. lra.
  - intros p _. rewrite !shannon_entropy_eq. f_equal. lra.
  - rewrite shannon_entropy_eq. replace (1 - 0) with 1 by lra.
    rewrite P0, P1. f_equal. lra.
  - rewrite shannon_entropy_eq. replace (1 - 1) with 0 by lra.
    rewrite P0, P1. f_equal. lra.
  - rewrite shannon_entropy_eq. replace (1 - 1 / 2) with (1 / 2) by lra.
    rewrite Ppos by lra. unfold log2r.
    replace (1 / 2) with (/ 2) by lra. rewrite ln_Rinv by lra.
    f_equal. field. lra.
  - intros a b t Ha Hab Hb Ht.
    do 3 eexists. rewrite !shannon_entropy_eq.
    split; [reflexivity|]. split; [reflexivity|]. split; [reflexivity|].
    set (m := t * a + (1 - t) * b).
    rewrite !plog2_xlnx.
    pose proof (xlnx_strictly_convex a b t) as C1.
    pose proof (xlnx_strictly_convex (1 - a) (1 - b) t) as C2.
    lapply C1; [clear C1; intros C1|lra]. lapply C1; [clear C1; intros C1|lra].
    lapply C1; [clear C1; intros C1|lra]. specialize (C1 Ht).
    lapply C2; [clear C2; intros C2|lra]. lapply C2; [clear C2; intros C2|lra].
    lapply C2; [clear C2; intros C2|lra]. specialize (C2 Ht).
    replace (t * (1 - a) + (1 - t) * (1 - b)) with (1 - m) in C2 by (unfold m; ring).
    fold m in C1.
    assert (Hinv : 0 < / ln 2) by (apply Rinv_0_lt_compat; lra).
    unfold Rdiv.
    set (k := / ln 2) in *.
    set (u := xlnx m) in *. set (v := xlnx (1 - m)) in *.
    set (ua := xlnx a) in *. set (va := xlnx (1 - a)) in *.
    set (ub := xlnx b) in *. set (vb := xlnx (1 - b)) in *.
    assert (Hk : (u + v) * k < (t * (ua + va) + (1 - t) * (ub + vb)) * k)
      by (apply Rmult_lt_compat_r; lra).
    nra.
Qed.

Lemma shannon_entropy_properties_witness :
  ∃ H0 H1 Hm,
    shannon_entropy 0 (1 - 0) = Ok H0 ∧
    shannon_entropy 1 (1 - 1) = Ok H1 ∧
    shannon_entropy (1 / 2 * 0 + (1 - 1 / 2) * 1)
                    (1 - (1 / 2 * 0 + (1 - 1 / 2) * 1)) = Ok Hm ∧
    1 / 2 * H0 + (1 - 1 / 2) * H1 < Hm.
Proof.
  refine (proj2 (proj2 (proj2 (proj2 (proj2 (proj2 (proj2
            shannon_entropy_properties)))))) 0 1 (1 / 2) _ _ _ _); lra.
Defined.

End entropy.

(** ** Cells of a nested dict *)

Lemma dict_get_Ok {V} (d : gmap string V) (k : string) (v : V) :
  dict_get d k = Ok v ↔ d !! k = Some v.
Proof. unfold dict_get. destruct (d !! k); split; congruence. Qed.

Lemma cell_get_Ok {V} (d : gmap string (gmap string V)) (env ph : string) (v : V) :
  cell_get d env ph = Ok v ↔ ∃ row, d !! env = Some row ∧ row !! ph = Some v.
Proof.
  unfold cell_get. rewrite bind_Ok. split.
  - intros (row & Hrow & Hv). exists row.
    by rewrite <- !dict_get_Ok.
  - intros (row & Hrow & Hv). exists row.
    by rewrite !dict_get_Ok.
Qed.

Lemma cell_get_dom {V} (d : gmap string (gmap string V)) (env ph : string) (v : V) :
  cell_get d env ph = Ok v → env ∈ dom d.
Proof.
  rewrite cell_get_Ok. intros (row & Hrow & _). apply elem_of_dom. eauto.
Qed.

Lemma count_of_cell (d : gmap string (gmap string Z)) (env ph : string) (n : Z) :
  cell_get d env ph = Ok n → count_of d env ph = n.
Proof.
  rewrite cell_get_Ok. intros (row & Hrow & Hn).
  unfold count_of. by rewrite Hrow, Hn.
Qed.

Lemma cell_update_Ok {V} (d : gmap string (gmap string V)) (env ph : string)
    (f : V → V) (v : V) :
  cell_get d env ph = Ok v →
  ∃ d', cell_update d env ph f = Ok d' ∧ dom d' = dom d ∧
        cell_get d' env ph = Ok (f v) ∧
        ∀ env' ph', ¬ (env' = env ∧ ph' = ph) →
                    cell_get d' env' ph' = cell_get d env' ph'.
Proof.
  rewrite cell_get_Ok. intros (row & Hrow & Hv).
  exists (<[env := <[ph := f v]> row]> d). repeat split.
  - unfold cell_update, dict_get. by rewrite Hrow; simpl; rewrite Hv.
  - rewrite dom_insert_L. apply elem_of_dom_2 in Hrow. set_solver.
  - apply cell_get_Ok. exists (<[ph := f v]> row).
    by rewrite !lookup_insert_eq.
  - intros env' ph' Hne. unfold cell_get, dict_get.
    destruct (decide (env' = env)) as [->|Henv].
    + rewrite lookup_insert_eq, Hrow. simpl.
      rewrite lookup_insert_ne by naive_solver. done.
    + by rewrite lookup_insert_ne.
Qed.

Lemma cell_get_insert_fresh {V} (d : gmap string (gmap string V))
    (env X Y : string) (z : V) (env' ph' : string) :
  cell_get (<[env := <[Y := z]> {[X := z]}]> d) env' ph' =
  if decide (env' = env)
  then (if decide (ph' = X ∨ ph' = Y) then Ok z else Raise KeyError)
  else cell_get d env' ph'.
Proof.
  unfold cell_get, dict_get. destruct (decide (env' = env)) as [->|Hne].
  - rewrite lookup_insert_eq. simpl.
    destruct (decide (ph' = Y)) as [->|HY].
    + rewrite lookup_insert_eq. by rewrite decide_True by auto.
    + rewrite lookup_insert_ne by done.
      destruct (decide (ph' = X)) as [->|HX].
      * rewrite lookup_singleton_eq. by rewrite decide_True by auto.
      * rewrite lookup_singleton_ne by done. by rewrite decide_False by naive_solver.
  - by rewrite lookup_insert_ne.
Qed.

(** ** The scan: an invariant over the log of classified occurrences *)

(** One classified occurrence of a target phone. *)
Record occurrence : Type := {
  occ_env : string;
  occ_phone : string;
  occ_word : string;
  occ_freq : Z
}.

Definition occurrences_in (env ph : string) (log : list occurrence)
  : list occurrence :=
  filter (λ o, occ_env o = env ∧ occ_phone o = ph) log.

Definition words_of (log : list occurrence) : gset string :=
  list_to_set (occ_word <$> log).

Definition tokens_of (log : list occurrence) : Z := sumZ (occ_freq <$> log).

Lemma occurrences_in_app env ph l1 l2 :
  occurrences_in env ph (l1 ++ l2) =
  occurrences_in env ph l1 ++ occurrences_in env ph l2.
Proof. apply filter_app. Qed.

Lemma occurrences_in_snoc env ph log o :
  occurrences_in env ph (log ++ [o]) =
  if decide (occ_env o = env ∧ occ_phone o = ph)
  then occurrences_in env ph log ++ [o]
  else occurrences_in env ph log.
Proof.
  rewrite occurrences_in_app. unfold occurrences_in at 2.
  rewrite filter_cons, filter_nil.
  destruct (decide _); [done|by rewrite app_nil_r].
Qed.

Lemma words_of_snoc log o : words_of (log ++ [o]) = words_of log ∪ {[occ_word o]}.
Proof.
  unfold words_of. rewrite fmap_app, list_to_set_app_L. simpl. set_solver.
Qed.

Lemma sumZ_app l1 l2 : sumZ (l1 ++ l2) = sumZ l1 + sumZ l2.
Proof. unfold sumZ. induction l1 as [|a l1 IH]; simpl; lia. Qed.

Lemma tokens_of_app l1 l2 : tokens_of (l1 ++ l2) = tokens_of l1 + tokens_of l2.
Proof. unfold tokens_of. by rewrite fmap_app, sumZ_app. Qed.

Lemma tokens_of_snoc log o : tokens_of (log ++ [o]) = tokens_of log + occ_freq o.
Proof. rewrite tokens_of_app. unfold tokens_of, sumZ. simpl. lia. Qed.

Section scan_invariant.

Variables phoneX phoneY : string.
Variable env_function : list string → Z → res string.

Abbreviation target ph := (ph = phoneX ∨ ph = phoneY).

(** The counts agree with a log [logT] for the type counts and the tracker
    and with a log [logK] for the token counts; [envs] are the environments
    created so far. *)
Record cells_ok (logT logK : list occurrence) (envs : string → Prop)
    (c : counts) : Prop := {
  ok_dom_token : dom (counts_token c) = dom (counts_type c);
  ok_dom_tracker : dom (counts_type_tracker c) = dom (counts_type c);
  ok_dom : ∀ env, env ∈ dom (counts_type c) ↔ envs env;
  ok_type : ∀ env ph, env ∈ dom (counts_type c) → target ph →
      cell_get (counts_type c) env ph =
        Ok (Z.of_nat (size (words_of (occurrences_in env ph logT))));
  ok_tracker : ∀ env ph, env ∈ dom (counts_type c) → target ph →
      cell_get (counts_type_tracker c) env ph =
        Ok (words_of (occurrences_in env ph logT));
  ok_token : ∀ env ph, env ∈ dom (counts_type c) → target ph →
      cell_get (counts_token c) env ph =
        Ok (tokens_of (occurrences_in env ph logK))
}.

Definition logged (log : list occurrence) (env : string) : Prop :=
  ∃ o, o ∈ log ∧ occ_env o = env.

Definition scan_inv (log : list occurrence) (c : counts) : Prop :=
  cells_ok log log (logged log) c.

Lemma scan_inv_init : scan_inv [] no_counts.
Proof.
  split; simpl; try done.
  intros env. rewrite dom_empty_L. split; [set_solver|].
  intros (o & Ho & _). by apply elem_of_nil in Ho.
Qed.

Lemma not_logged_no_occurrences log env ph :
  ¬ logged log env → occurrences_in env ph log = [].
Proof.
  intros Hno. unfold occurrences_in.
  induction log as [|o log IH]; [done|].
  rewrite filter_cons. destruct (decide _) as [[He _]|_].
  - exfalso. apply Hno. exists o. split; [left|done].
  - apply IH. intros (o' & Ho' & He'). apply Hno. exists o'. split; [by right|done].
Qed.

Lemma ensure_env_ok log env c :
  scan_inv log c →
  cells_ok log log (λ e, e = env ∨ logged log e) (ensure_env phoneX phoneY env c).
Proof.
  intros [Hdk Hdr Hdom Hty Htr Htk]. unfold ensure_env.
  destruct (bool_decide (env ∉ dom (counts_type c))) eqn:Hfresh.
  - apply bool_decide_eq_true in Hfresh.
    assert (Hnl : ¬ logged log env) by (by rewrite <- Hdom).
    split; simpl.
    + rewrite !dom_insert_L. by rewrite Hdk.
    + rewrite !dom_insert_L. by rewrite Hdr.
    + intros e. rewrite dom_insert_L, elem_of_union, elem_of_singleton.
      by rewrite Hdom.
    + intros e ph He Hph. rewrite cell_get_insert_fresh.
      destruct (decide (e = env)) as [->|Hne].
      * rewrite decide_True by done.
        by rewrite (not_logged_no_occurrences _ _ _ Hnl).
      * apply Hty; [|done]. rewrite dom_insert_L in He. set_solver.
    + intros e ph He Hph. rewrite cell_get_insert_fresh.
      destruct (decide (e = env)) as [->|Hne].
      * rewrite decide_True by done.
        by rewrite (not_logged_no_occurrences _ _ _ Hnl).
      * apply Htr; [|done]. rewrite dom_insert_L in He. set_solver.
    + intros e ph He Hph. rewrite cell_get_insert_fresh.
      destruct (decide (e = env)) as [->|Hne].
      * rewrite decide_True by done.
        by rewrite (not_logged_no_occurrences _ _ _ Hnl).
      * apply Htk; [|done]. rewrite dom_insert_L in He. set_solver.
  - apply bool_decide_eq_false in Hfresh.
    assert (Hin : env ∈ dom (counts_type c)).
    { destruct (decide (env ∈ dom (counts_type c))); [done|by exfalso; apply Hfresh]. }
    split; try done.
    intros e. rewrite Hdom. split; [by right|].
    intros [->|He]; [by apply Hdom|done].
Qed.

Lemma count_type_ok log envs env ph w f c :
  cells_ok log log envs c → envs env → target ph →
  let o := {| occ_env := env; occ_phone := ph; occ_word := w; occ_freq := f |} in
  ∃ c', count_type w env ph c = Ok c' ∧ cells_ok (log ++ [o]) log envs c'.
Proof.
  intros [Hdk Hdr Hdom Hty Htr Htk] Henv Hph o.
  assert (Hin : env ∈ dom (counts_type c)) by (by apply Hdom).
  unfold count_type. rewrite (Htr env ph Hin Hph). simpl.
  set (seen := words_of (occurrences_in env ph log)).
  assert (Hsnoc : ∀ e p, occurrences_in e p (log ++ [o]) =
            if decide (e = env ∧ p = ph) then occurrences_in e p log ++ [o]
            else occurrences_in e p log).
  { intros e p. rewrite occurrences_in_snoc. simpl.
    destruct (decide (env = e ∧ ph = p)) as [[-> ->]|Hne].
    - by rewrite decide_True.
    - rewrite decide_False; [done|]. intros [-> ->]. by apply Hne. }
  destruct (bool_decide (w ∉ seen)) eqn:Hseen.
  - apply bool_decide_eq_true in Hseen.
    destruct (cell_update_Ok (counts_type c) env ph (λ n, n + 1) _ (Hty env ph Hin Hph))
      as (ct & -> & Hdct & Hct & Hct'). simpl.
    destruct (cell_update_Ok (counts_type_tracker c) env ph (λ s, s ∪ {[w]}) _
                (Htr env ph Hin Hph))
      as (tr & -> & Hdtr & Htr1 & Htr'). simpl.
    eexists. split; [reflexivity|].
    split; simpl.
    + by rewrite Hdct.
    + by rewrite Hdtr, Hdct.
    + intros e. by rewrite Hdct.
    + intros e p He Hp. rewrite Hdct in He. rewrite Hsnoc.
      destruct (decide (e = env ∧ p = ph)) as [[-> ->]|Hne].
      * rewrite Hct. f_equal. rewrite words_of_snoc. simpl.
        rewrite size_union by set_solver. rewrite size_singleton. lia.
      * rewrite Hct' by done. by apply Hty.
    + intros e p He Hp. rewrite Hdct in He. rewrite Hsnoc.
      destruct (decide (e = env ∧ p = ph)) as [[-> ->]|Hne].
      * rewrite Htr1. f_equal. by rewrite words_of_snoc.
      * rewrite Htr' by done. by apply Htr.
    + intros e p He Hp. rewrite Hdct in He. by apply Htk.
  - apply bool_decide_eq_false in Hseen.
    assert (Hw : w ∈ seen).
    { destruct (decide (w ∈ seen)); [done|by exfalso; apply Hseen]. }
    eexists. split; [reflexivity|].
    assert (Hsame : words_of (occurrences_in env ph log ++ [o]) = seen).
    { rewrite words_of_snoc. simpl. fold seen. set_solver. }
    split; try done.
    + intros e p He Hp. rewrite Hsnoc.
      destruct (decide (e = env ∧ p = ph)) as [[-> ->]|Hne].
      * rewrite Hsame. by apply Hty.
      * by apply Hty.
    + intros e p He Hp. rewrite Hsnoc.
      destruct (decide (e = env ∧ p = ph)) as [[-> ->]|Hne].
      * rewrite Hsame. by apply Htr.
      * by apply Htr.
Qed.

Lemma count_token_ok logT log envs env ph w f c :
  cells_ok logT log envs c → envs env → target ph →
  let o := {| occ_env := env; occ_phone := ph; occ_word := w; occ_freq := f |} in
  ∃ c', count_token f env ph c = Ok c' ∧ cells_ok logT (log ++ [o]) envs c'.
Proof.
  intros [Hdk Hdr Hdom Hty Htr Htk] Henv Hph o.
  assert (Hin : env ∈ dom (counts_type c)) by (by apply Hdom).
  unfold count_token.
  destruct (cell_update_Ok (counts_token c) env ph (λ n, n + f) _ (Htk env ph Hin Hph))
    as (ck & -> & Hdck & Hck & Hck'). simpl.
  eexists. split; [reflexivity|].
  split; simpl; try done.
  - by rewrite Hdck.
  - intros e p He Hp. rewrite occurrences_in_snoc. simpl.
    destruct (decide (env = e ∧ ph = p)) as [[<- <-]|Hne].
    + rewrite Hck. f_equal. by rewrite tokens_of_snoc.
    + rewrite Hck'; [by apply Htk|]. intros [-> ->]. by apply Hne.
Qed.

Lemma logged_snoc log o e :
  logged (log ++ [o]) e ↔ e = occ_env o ∨ logged log e.
Proof.
  unfold logged. split.
  - intros (o' & Ho' & He). apply elem_of_app in Ho' as [Ho'|Ho'].
    + right. eauto.
    + apply list_elem_of_singleton in Ho' as ->. by left.
  - intros [->|(o' & Ho' & He)].
    + exists o. split; [|done]. apply elem_of_app. right. by left.
    + exists o'. split; [|done]. apply elem_of_app. by left.
Qed.

(** One classified occurrence: the three blocks of the loop body keep the
    invariant and never raise. *)
Lemma occurrence_step log env ph w f c :
  scan_inv log c → target ph →
  let o := {| occ_env := env; occ_phone := ph; occ_word := w; occ_freq := f |} in
  ∃ c', (count_type w env ph (ensure_env phoneX phoneY env c)
           ≫= count_token f env ph) = Ok c' ∧
        scan_inv (log ++ [o]) c'.
Proof.
  intros Hinv Hph o.
  pose proof (ensure_env_ok log env c Hinv) as H0.
  destruct (count_type_ok log _ env ph w f _ H0 (or_introl eq_refl) Hph)
    as (c1 & -> & H1). simpl.
  destruct (count_token_ok _ log _ env ph w f _ H1 (or_introl eq_refl) Hph)
    as (c2 & -> & H2).
  exists c2. split; [done|].
  destruct H2 as [Hdk Hdr Hdom Hty Htr Htk].
  split; try done.
  intros e. rewrite Hdom, logged_snoc. done.
Qed.

(** The occurrences that the scan classifies, in the order of the scan. *)
Definition occurrence_at (w : string) (f : Z) (phones : list string)
    (iph : Z * string) : list occurrence :=
  if bool_decide (iph.2 = phoneX) || bool_decide (iph.2 = phoneY) then
    match env_function phones iph.1 with
    | Ok env => [{| occ_env := env; occ_phone := iph.2;
                    occ_word := w; occ_freq := f |}]
    | Raise _ => []
    end
  else [].

Definition row_occurrences (row : WordRecord) : list occurrence :=
  let phones := phone_sequence (Phono row) in
  enumerate phones ≫= occurrence_at (Word row) (Frequency row) phones.

Definition df_occurrences (df : list WordRecord) : list occurrence :=
  df ≫= row_occurrences.

Lemma target_bool ph :
  bool_decide (ph = phoneX) || bool_decide (ph = phoneY) = true ↔ target ph.
Proof. rewrite orb_true_iff, !bool_decide_eq_true. done. Qed.

(** A visit either keeps the invariant, or the classifier raised. *)
Lemma visit_ok log w f phones c i ph :
  scan_inv log c →
  match visit phoneX phoneY env_function w f phones c (i, ph) with
  | Ok c' => scan_inv (log ++ occurrence_at w f phones (i, ph)) c'
  | Raise _ => target ph ∧ ∃ e, env_function phones i = Raise e
  end.
Proof.
  intros Hinv. unfold visit, occurrence_at. simpl.
  destruct (bool_decide (ph = phoneX) || bool_decide (ph = phoneY)) eqn:Hph.
  - apply target_bool in Hph.
    destruct (env_function phones i) as [env|e]; simpl.
    + destruct (occurrence_step log env ph w f c Hinv Hph) as (c' & Hc' & Hinv').
      simpl in Hc'. unfold mbind, res_bind in *. by rewrite Hc'.
    + split; [done|]. by exists e.
  - by rewrite app_nil_r.
Qed.

Lemma for_each_inv {A B S} (I : list B → S → Prop) (g : A → list B)
    (body : S → A → res S) :
  (∀ log s a, I log s →
     match body s a with Ok s' => I (log ++ g a) s' | Raise _ => True end) →
  ∀ l log s, I log s →
    match for_each l body s with
    | Ok s' => I (log ++ (l ≫= g)) s'
    | Raise _ => True
    end.
Proof.
  intros Hbody l. induction l as [|a l IH]; intros log s Hs; simpl.
  - by rewrite app_nil_r.
  - pose proof (Hbody log s a Hs) as Ha.
    destruct (body s a) as [s1|e]; simpl; [|done].
    specialize (IH _ _ Ha). destruct (for_each l body s1); [|done].
    by rewrite <- app_assoc in IH.
Qed.

Lemma scan_row_ok log c row :
  scan_inv log c →
  match scan_row phoneX phoneY env_function c row with
  | Ok c' => scan_inv (log ++ row_occurrences row) c'
  | Raise _ => True
  end.
Proof.
  intros Hinv. unfold scan_row, row_occurrences.
  apply (for_each_inv scan_inv); [|done].
  intros log' s [i ph] Hs.
  pose proof (visit_ok log' (Word row) (Frequency row)
                (phone_sequence (Phono row)) s i ph Hs) as Hv.
  by destruct (visit _ _ _ _ _ _ _ _).
Qed.

(** The counts after the scan agree with the log of all occurrences. *)
Lemma scan_ok df c :
  scan phoneX phoneY env_function df = Ok c → scan_inv (df_occurrences df) c.
Proof.
  intros Hscan. unfold scan in Hscan.
  pose proof (for_each_inv scan_inv row_occurrences
                (scan_row phoneX phoneY env_function)
                (λ log s a Hs, scan_row_ok log s a Hs) df [] no_counts scan_inv_init) as H.
  by rewrite Hscan in H.
Qed.

Lemma occurrence_at_target w f phones iph o :
  o ∈ occurrence_at w f phones iph → target (occ_phone o).
Proof.
  unfold occurrence_at.
  destruct (bool_decide (iph.2 = phoneX) || bool_decide (iph.2 = phoneY)) eqn:Hph;
    [|by intros ?%elem_of_nil].
  apply target_bool in Hph.
  destruct (env_function phones iph.1); [|by intros ?%elem_of_nil].
  by intros ->%list_elem_of_singleton.
Qed.

Lemma df_occurrences_target df o :
  o ∈ df_occurrences df → target (occ_phone o).
Proof.
  unfold df_occurrences, row_occurrences.
  intros (row & Ho & _)%list_elem_of_bind.
  apply list_elem_of_bind in Ho as (iph & Ho & _).
  by eapply occurrence_at_target.
Qed.

(** The log, row by row, in the vocabulary of the specification. *)
Lemma occurrences_in_bind env ph w f phones (l : list (Z * string)) :
  target ph →
  occurrences_in env ph (l ≫= occurrence_at w f phones) =
  (λ _, {| occ_env := env; occ_phone := ph; occ_word := w; occ_freq := f |})
    <$> filter (λ ip, ip.2 = ph ∧ env_function phones ip.1 = Ok env) l.
Proof.
  intros Hph. induction l as [|[i p] l IH]; [done|].
  rewrite bind_cons, occurrences_in_app, IH, filter_cons. simpl.
  unfold occurrence_at. simpl.
  destruct (bool_decide (p = phoneX) || bool_decide (p = phoneY)) eqn:Hp.
  - destruct (env_function phones i) as [e|err].
    + unfold occurrences_in. rewrite filter_cons, filter_nil. simpl.
      destruct (decide (e = env ∧ p = ph)) as [[-> ->]|Hne].
      * by rewrite decide_True.
      * rewrite decide_False; [done|]. intros [-> [= ->]]. by apply Hne.
    + rewrite decide_False; [done|]. by intros [_ ?].
  - rewrite decide_False; [done|]. intros [-> _].
    apply target_bool in Hph. congruence.
Qed.

Lemma occurrences_in_row env ph row :
  target ph →
  occurrences_in env ph (row_occurrences row) =
  (λ _, {| occ_env := env; occ_phone := ph;
           occ_word := Word row; occ_freq := Frequency row |})
    <$> positions_of env_function env ph row.
Proof. intros Hph. unfold row_occurrences, positions_of. by apply occurrences_in_bind. Qed.

Lemma words_of_const (o : occurrence) {A} (l : list A) :
  l ≠ [] → words_of ((λ _, o) <$> l) = {[occ_word o]}.
Proof.
  intros Hl. destruct l as [|a l]; [done|]. clear Hl.
  revert a. induction l as [|b l IH]; intros a.
  - unfold words_of. simpl. set_solver.
  - change (words_of ((λ _, o) <$> a :: b :: l))
      with ({[occ_word o]} ∪ words_of ((λ _ : A, o) <$> b :: l)).
    rewrite IH. set_solver.
Qed.

Lemma tokens_of_const (o : occurrence) {A} (l : list A) :
  tokens_of ((λ _, o) <$> l) = occ_freq o * len l.
Proof.
  induction l as [|a l IH]; [unfold tokens_of, sumZ, len; simpl; lia|].
  change (tokens_of ((λ _, o) <$> a :: l))
    with (occ_freq o + tokens_of ((λ _ : A, o) <$> l)).
  rewrite IH. unfold len. simpl length. lia.
Qed.

Lemma words_of_app l1 l2 : words_of (l1 ++ l2) = words_of l1 ∪ words_of l2.
Proof. unfold words_of. by rewrite fmap_app, list_to_set_app_L. Qed.

Lemma words_of_df env ph df :
  target ph →
  words_of (occurrences_in env ph (df_occurrences df)) =
  contributing_words env_function env ph df.
Proof.
  intros Hph. unfold contributing_words, df_occurrences.
  induction df as [|row df IH]; [done|].
  rewrite bind_cons, occurrences_in_app, words_of_app, IH, filter_cons.
  rewrite occurrences_in_row by done.
  destruct (decide (positions_of env_function env ph row ≠ [])) as [Hne|He].
  - rewrite words_of_const by done. done.
  - assert (E : positions_of env_function env ph row = []).
    { destruct (positions_of env_function env ph row); [done|]. by exfalso; apply He. }
    rewrite E. simpl. set_solver.
Qed.

Lemma tokens_of_df env ph df :
  target ph →
  tokens_of (occurrences_in env ph (df_occurrences df)) =
  token_mass env_function env ph df.
Proof.
  intros Hph. unfold token_mass, df_occurrences.
  induction df as [|row df IH]; [done|].
  rewrite bind_cons, occurrences_in_app, tokens_of_app, IH.
  rewrite occurrences_in_row, tokens_of_const by done. done.
Qed.

(** What the scan leaves in the cells of an environment it created. *)
Lemma scan_cells df c env ph :
  scan phoneX phoneY env_function df = Ok c →
  target ph → env ∈ dom (counts_type c) →
  cell_get (counts_type c) env ph =
    Ok (Z.of_nat (size (contributing_words env_function env ph df))) ∧
  cell_get (counts_token c) env ph = Ok (token_mass env_function env ph df).
Proof.
  intros Hscan Hph Henv. destruct (scan_ok df c Hscan) as [_ _ _ Hty _ Htk].
  rewrite <- words_of_df, <- tokens_of_df by done. auto.
Qed.

Lemma scan_dom df c env :
  scan phoneX phoneY env_function df = Ok c →
  (env ∈ dom (counts_type c) ↔
     ∃ ph row, target ph ∧ row ∈ df ∧ positions_of env_function env ph row ≠ []) ∧
  dom (counts_token c) = dom (counts_type c).
Proof.
  intros Hscan. destruct (scan_ok df c Hscan) as [Hdk _ Hdom _ _ _].
  split; [|done]. rewrite Hdom. unfold logged. split.
  - intros (o & Ho & <-).
    pose proof (df_occurrences_target df o Ho) as Hph.
    exists (occ_phone o).
    assert (Hin : o ∈ occurrences_in (occ_env o) (occ_phone o) (df_occurrences df)).
    { unfold occurrences_in. apply list_elem_of_filter. done. }
    unfold df_occurrences in Hin.
    assert (∃ row, row ∈ df ∧
              o ∈ occurrences_in (occ_env o) (occ_phone o) (row_occurrences row))
      as (row & Hrow & Hor).
    { apply list_elem_of_filter in Hin as [Hp Hin].
      apply list_elem_of_bind in Hin as (row & Hor & Hrow).
      exists row. split; [done|]. apply list_elem_of_filter. done. }
    exists row. split; [done|]. split; [done|].
    rewrite occurrences_in_row in Hor by done.
    intros E. rewrite E in Hor. by apply elem_of_nil in Hor.
  - intros (ph & row & Hph & Hrow & Hpos).
    destruct (positions_of env_function env ph row) as [|ip l] eqn:E; [done|].
    set (o := {| occ_env := env; occ_phone := ph;
                 occ_word := Word row; occ_freq := Frequency row |}).
    exists o. split; [|done].
    assert (Hin : o ∈ occurrences_in env ph (row_occurrences row)).
    { rewrite occurrences_in_row, E by done. simpl. left. }
    apply list_elem_of_filter in Hin as [_ Hin].
    unfold df_occurrences. apply list_elem_of_bind. eauto.
Qed.

End scan_invariant.

(** ** Type counts and token counts *)

Lemma scan_cells_absent phoneX phoneY env_function df c env ph :
  scan phoneX phoneY env_function df = Ok c →
  ph = phoneX ∨ ph = phoneY → env ∉ dom (counts_type c) →
  count_of (counts_type c) env ph = 0 ∧ count_of (counts_token c) env ph = 0 ∧
  contributing_words env_function env ph df = ∅ ∧
  token_mass env_function env ph df = 0.
Proof.
  intros Hscan Hph Henv.
  destruct (scan_ok _ _ _ df c Hscan) as [Hdk _ Hdom _ _ _].
  assert (Hnl : ¬ logged (df_occurrences phoneX phoneY env_function df) env)
    by (by rewrite <- Hdom).
  pose proof (not_logged_no_occurrences _ env ph Hnl) as Hocc.
  unfold count_of.
  rewrite (not_elem_of_dom_1 _ _ Henv).
  rewrite <- Hdk in Henv. rewrite (not_elem_of_dom_1 _ _ Henv).
  rewrite <- (words_of_df phoneX phoneY), <- (tokens_of_df phoneX phoneY) by done.
  by rewrite Hocc.
Qed.

Lemma scan_counts phoneX phoneY env_function df c env ph :
  scan phoneX phoneY env_function df = Ok c →
  ph = phoneX ∨ ph = phoneY →
  count_of (counts_type c) env ph =
    Z.of_nat (size (contributing_words env_function env ph df)) ∧
  count_of (counts_token c) env ph = token_mass env_function env ph df.
Proof.
  intros Hscan Hph.
  destruct (decide (env ∈ dom (counts_type c))) as [Hin|Hout].
  - destruct (scan_cells _ _ _ df c env ph Hscan Hph Hin) as [Hty Htk].
    by rewrite (count_of_cell _ _ _ _ Hty), (count_of_cell _ _ _ _ Htk).
  - destruct (scan_cells_absent _ _ _ df c env ph Hscan Hph Hout)
      as (-> & -> & -> & ->). by rewrite size_empty.
Qed.

(** C2: after the scan the type count of a cell is the number of distinct
    words that contribute the phone in the environment, however often the
    phone occurs there in a word, and the token count is the sum, over the
    rows, of the frequency times the number of qualifying positions.  For a
    single row with [k ≥ 1] qualifying positions that is type count 1 and
    token count [k] times the frequency. *)
Theorem type_and_token_counts phoneX phoneY env_function df c env ph :
  scan phoneX phoneY env_function df = Ok c →
  ph = phoneX ∨ ph = phoneY →
  count_of (counts_type c) env ph =
    Z.of_nat (size (contributing_words env_function env ph df)) ∧
  count_of (counts_token c) env ph = token_mass env_function env ph df ∧
  (∀ row, df = [row] → positions_of env_function env ph row ≠ [] →
     count_of (counts_type c) env ph = 1 ∧
     count_of (counts_token c) env ph =
       len (positions_of env_function env ph row) * Frequency row).
Proof.
  intros Hscan Hph.
  destruct (scan_counts _ _ _ df c env ph Hscan Hph) as [Hty Htk].
  split; [done|]. split; [done|].
  intros row -> Hpos. rewrite Hty, Htk. split.
  - unfold contributing_words.
    rewrite filter_cons, filter_nil, decide_True by done.
    change (list_to_set (Word <$> [row]) : gset string)
      with ({[Word row]} ∪ ∅ : gset string).
    by rewrite union_empty_r_L, size_singleton.
  - unfold token_mass, sumZ. cbn [fmap list_fmap foldr]. lia.
Qed.

Lemma type_and_token_counts_witness :
  let df := [ {| Word := "Sessel"; Phono := "a.s.s.s.a"; Frequency := 7 |} ] in
  ∃ c, scan "s" "S" env_s_S df = Ok c ∧
       count_of (counts_type c) "WordMedial" "s" = 1 ∧
       count_of (counts_token c) "WordMedial" "s" = 3 * 7.
Proof.
  intros df.
  assert (E : ∃ c, scan "s" "S" env_s_S df = Ok c)
    by (eexists; vm_compute; reflexivity).
  destruct E as [c E]. exists c. split; [exact E|].
  destruct (type_and_token_counts "s" "S" env_s_S df c "WordMedial" "s" E
              (or_introl eq_refl)) as (_ & _ & Hrow).
  apply (Hrow _ eq_refl). vm_compute. discriminate.
Defined.

Lemma sumZ_nonneg (l : list Z) : Forall (λ z, 0 ≤ z) l → 0 ≤ sumZ l.
Proof. unfold sumZ. induction 1; simpl; lia. Qed.

Lemma token_mass_pos env_function env ph df row :
  Forall (λ r, 0 < Frequency r) df → row ∈ df →
  positions_of env_function env ph row ≠ [] →
  0 < token_mass env_function env ph df.
Proof.
  intros Hpos Hrow Hne. unfold token_mass.
  induction df as [|r df IH]; [by apply elem_of_nil in Hrow|].
  apply Forall_cons in Hpos as [Hr Hdf]. rewrite fmap_cons. unfold sumZ. simpl.
  fold (sumZ ((λ row0, Frequency row0 * len (positions_of env_function env ph row0)) <$> df)).
  assert (Hlen : ∀ r', 0 ≤ len (positions_of env_function env ph r'))
    by (intros; unfold len; lia).
  apply elem_of_cons in Hrow as [->|Hrow].
  - assert (0 < len (positions_of env_function env ph r)).
    { unfold len. destruct (positions_of env_function env ph r); [done|simpl; lia]. }
    assert (0 ≤ sumZ ((λ row0, Frequency row0 * len (positions_of env_function env ph row0)) <$> df)).
    { apply sumZ_nonneg. apply Forall_fmap, Forall_forall. intros r' Hr'. simpl.
      rewrite Forall_forall in Hdf. specialize (Hdf r' Hr'). specialize (Hlen r'). nia. }
    nia.
  - specialize (IH Hdf Hrow). specialize (Hlen r). nia.
Qed.

(** C8, as stated, fails for the token counts: a row of frequency 0 creates
    its environment in the token-count map and adds 0 to it. *)
Lemma zero_frequency_leaves_zero_token_counts :
  let df := [ {| Word := "x"; Phono := "x"; Frequency := 0 |} ] in
  wf_dataset df ∧
  ∃ c, scan "x" "C" env_x_c df = Ok c ∧
       "WordInitial" ∈ dom (counts_token c) ∧
       cell_get (counts_token c) "WordInitial" "x" = Ok 0 ∧
       cell_get (counts_token c) "WordInitial" "C" = Ok 0 ∧
       ¬ ∃ ph, count_of (counts_token c) "WordInitial" ph ≠ 0.
Proof.
  intros df. split; [repeat constructor; simpl; lia|].
  exists {| counts_type := {[ "WordInitial" := <["C" := 0]> {[ "x" := 1 ]} ]};
            counts_token := {[ "WordInitial" := <["C" := 0]> {[ "x" := 0 ]} ]};
            counts_type_tracker :=
              {[ "WordInitial" := <["C" := ∅]> {[ "x" := {["x"]} ]} ]} |}.
  split; [vm_compute; reflexivity|]. simpl.
  split; [apply elem_of_dom; by rewrite lookup_singleton_eq|].
  split; [reflexivity|]. split; [reflexivity|].
  intros [ph Hph]. apply Hph. unfold count_of.
  rewrite lookup_singleton_eq.
  destruct (decide (ph = "C")) as [->|HC]; [by rewrite lookup_insert_eq|].
  rewrite lookup_insert_ne by done.
  destruct (decide (ph = "x")) as [->|Hx]; [by rewrite lookup_singleton_eq|].
  by rewrite lookup_singleton_ne.
Qed.

(** C8, amended: every environment in the type-count map has a positive type
    count for one of the two phones, since an environment is created only
    when an occurrence is classified into it; every environment in the
    token-count map has a positive token count for one of the two phones
    when all frequencies are positive. *)
Theorem created_environments_are_counted phoneX phoneY env_function df c :
  scan phoneX phoneY env_function df = Ok c →
  (∀ env, env ∈ dom (counts_type c) →
     ∃ ph n, (ph = phoneX ∨ ph = phoneY) ∧
             cell_get (counts_type c) env ph = Ok n ∧ 0 < n) ∧
  (Forall (λ row, 0 < Frequency row) df →
   ∀ env, env ∈ dom (counts_token c) →
     ∃ ph n, (ph = phoneX ∨ ph = phoneY) ∧
             cell_get (counts_token c) env ph = Ok n ∧ 0 < n).
Proof.
  intros Hscan. split.
  - intros env Henv.
    destruct (scan_dom _ _ _ df c env Hscan) as [Hdom _].
    destruct (proj1 Hdom Henv) as (ph & row & Hph & Hrow & Hpos).
    destruct (scan_cells _ _ _ df c env ph Hscan Hph Henv) as [Hty _].
    exists ph, (Z.of_nat (size (contributing_words env_function env ph df))).
    split; [done|]. split; [done|].
    assert (Hw : Word row ∈ contributing_words env_function env ph df).
    { unfold contributing_words. apply elem_of_list_to_set, list_elem_of_fmap.
      exists row. split; [done|]. apply list_elem_of_filter. done. }
    assert (size (contributing_words env_function env ph df) ≠ 0%nat).
    { apply size_non_empty_iff. set_solver. }
    lia.
  - intros Hfreq env Henv.
    destruct (scan_dom _ _ _ df c env Hscan) as [Hdom Hdk].
    rewrite Hdk in Henv.
    destruct (proj1 Hdom Henv) as (ph & row & Hph & Hrow & Hpos).
    destruct (scan_cells _ _ _ df c env ph Hscan Hph Henv) as [_ Htk].
    exists ph, (token_mass env_function env ph df).
    split; [done|]. split; [done|].
    by eapply token_mass_pos.
Qed.

Lemma created_environments_are_counted_witness :
  let df := [ {| Word := "ich"; Phono := "I.C"; Frequency := 10 |} ] in
  ∃ c, scan "x" "C" env_x_c df = Ok c ∧
       ∀ env, env ∈ dom (counts_token c) →
         ∃ ph n, (ph = "x" ∨ ph = "C") ∧
                 cell_get (counts_token c) env ph = Ok n ∧ 0 < n.
Proof.
  intros df.
  assert (E : ∃ c, scan "x" "C" env_x_c df = Ok c)
    by (eexists; vm_compute; reflexivity).
  destruct E as [c E]. exists c. split; [exact E|].
  apply (created_environments_are_counted "x" "C" env_x_c df c E).
  repeat constructor; simpl; lia.
Defined.

(** ** The entropy stage *)

Section entropy_stage.

Variables phoneX phoneY : string.

Abbreviation comb d env := (combined phoneX phoneY d env).

(** Every environment of [d] has a count for both phones. *)
Definition full_cells (d : gmap string (gmap string Z)) : Prop :=
  ∀ env, env ∈ dom d →
    ∃ x y, cell_get d env phoneX = Ok x ∧ cell_get d env phoneY = Ok y.

(** The entropy [H(env)] and the weight [p(env)] of an environment. *)
Definition env_H (d : gmap string (gmap string Z)) (env : string) : R :=
  let pX := (IZR (count_of d env phoneX) / IZR (comb d env))%R in
  (0 - plog2 pX - plog2 (1 - pX))%R.

Definition env_p (d : gmap string (gmap string Z)) (total : Z) (env : string) : R :=
  (IZR (comb d env) / IZR total)%R.

(** What [env_entropy] does to the two dicts when nothing raises. *)
Definition scheme_step (d : gmap string (gmap string Z)) (total : Z)
    (acc : gmap string R * gmap string R) (env : string)
  : gmap string R * gmap string R :=
  if 0 <? comb d env
  then (<[env := env_H d env]> acc.1, <[env := env_p d total env]> acc.2)
  else acc.

Lemma elem_of_keys {V} (d : gmap string V) (k : string) : k ∈ keys d ↔ k ∈ dom d.
Proof.
  unfold keys. rewrite list_elem_of_fmap, elem_of_dom. split.
  - intros ([k' v] & -> & Hkv). apply elem_of_map_to_list in Hkv. eauto.
  - intros [v Hv]. exists (k, v). split; [done|]. by apply elem_of_map_to_list.
Qed.

Lemma NoDup_keys {V} (d : gmap string V) : NoDup (keys d).
Proof. apply NoDup_fst_map_to_list. Qed.

Lemma total_of_loop d ks acc :
  full_cells d → (∀ env, env ∈ ks → env ∈ dom d) →
  for_each ks
    (λ total env,
       x ← cell_get d env phoneX; y ← cell_get d env phoneY; Ok (total + (x + y)))
    acc
  = Ok (acc + sumZ ((λ env, comb d env) <$> ks)).
Proof.
  intros Hfull. revert acc. induction ks as [|env ks IH]; intros acc Hks.
  - rewrite fmap_nil. unfold sumZ. simpl. f_equal. lia.
  - destruct (Hfull env) as (x & y & Hx & Hy); [apply Hks; left|].
    rewrite fmap_cons.
    change (sumZ (comb d env :: ((λ env0, comb d env0) <$> ks)))
      with (comb d env + sumZ ((λ env0, comb d env0) <$> ks)).
    unfold combined at 1.
    rewrite (count_of_cell _ _ _ _ Hx), (count_of_cell _ _ _ _ Hy).
    set (rest := sumZ ((λ env0, comb d env0) <$> ks)) in *.
    simpl. rewrite Hx. simpl. rewrite Hy. simpl.
    rewrite IH by (intros e He; apply Hks; by right).
    f_equal. lia.
Qed.

Lemma total_of_ok d :
  full_cells d →
  total_of phoneX phoneY d = Ok (sumZ ((λ env, comb d env) <$> keys d)).
Proof.
  intros Hfull. unfold total_of. rewrite total_of_loop; [done..|].
  intros env. by rewrite elem_of_keys.
Qed.

Lemma truediv_Ok (a b : Z) : b ≠ 0 → truediv a b = Ok (IZR a / IZR b)%R.
Proof. intros Hb. unfold truediv. by destruct (Z.eqb_spec b 0). Qed.

Lemma env_entropy_eq d total acc env :
  env ∈ dom d → full_cells d →
  env_entropy phoneX phoneY d total acc env =
  if (0 <? comb d env) && (total =? 0) then Raise ZeroDivisionError
  else Ok (scheme_step d total acc env).
Proof.
  intros Henv Hfull. destruct (Hfull env Henv) as (x & y & Hx & Hy).
  unfold env_entropy, scheme_step, env_H, env_p, combined.
  destruct acc as [E P].
  rewrite Hx. simpl. rewrite Hy. simpl.
  rewrite (count_of_cell _ _ _ _ Hx), (count_of_cell _ _ _ _ Hy).
  destruct (Z.ltb_spec 0 (x + y)) as [Hpos|Hnpos]; [|done].
  rewrite (truediv_Ok x (x + y)) by lia. simpl.
  rewrite shannon_entropy_eq. simpl.
  unfold truediv. destruct (Z.eqb_spec total 0); done.
Qed.

Definition safe_total (d : gmap string (gmap string Z)) (total : Z) : Prop :=
  ∀ env, env ∈ dom d → 0 < comb d env → total ≠ 0.

Lemma env_entropy_safe d total acc env :
  env ∈ dom d → full_cells d → safe_total d total →
  env_entropy phoneX phoneY d total acc env = Ok (scheme_step d total acc env).
Proof.
  intros Henv Hfull Hsafe. rewrite env_entropy_eq by done.
  destruct (Z.ltb_spec 0 (comb d env)) as [Hpos|_]; [|done].
  specialize (Hsafe env Henv Hpos). by destruct (Z.eqb_spec total 0).
Qed.

Lemma env_entropy_inv d total acc env acc' :
  env ∈ dom d → full_cells d →
  env_entropy phoneX phoneY d total acc env = Ok acc' →
  acc' = scheme_step d total acc env.
Proof.
  intros Henv Hfull. rewrite env_entropy_eq by done.
  destruct (_ && _); congruence.
Qed.

Section both_schemes.

Variable c : counts.
Variables total_types total_tokens : Z.
Hypothesis dom_token : dom (counts_token c) = dom (counts_type c).
Hypothesis full_type : full_cells (counts_type c).
Hypothesis full_token : full_cells (counts_token c).

Abbreviation body :=
  (λ (acc : entropies_state) env,
     ty ← env_entropy phoneX phoneY (counts_type c) total_types acc.1 env;
     tk ← env_entropy phoneX phoneY (counts_token c) total_tokens acc.2 env;
     Ok (ty, tk)).

Lemma entropies_loop_inv ks acc acc' :
  (∀ env, env ∈ ks → env ∈ dom (counts_type c)) →
  for_each ks body acc = Ok acc' →
  acc' = (foldl (scheme_step (counts_type c) total_types) acc.1 ks,
          foldl (scheme_step (counts_token c) total_tokens) acc.2 ks).
Proof.
  revert acc. induction ks as [|env ks IH]; intros [aT aK] Hks Hrun.
  - simpl in *. congruence.
  - simpl in Hrun. apply bind_Ok in Hrun as (acc1 & H1 & Hrun).
    apply bind_Ok in H1 as (ty & Hty & H1).
    apply bind_Ok in H1 as (tk & Htk & [= <-]).
    assert (Henv : env ∈ dom (counts_type c)) by (apply Hks; left).
    apply env_entropy_inv in Hty; [|done..].
    apply env_entropy_inv in Htk; [|by rewrite dom_token|done].
    subst ty tk. simpl in *.
    apply IH in Hrun; [done|]. intros e He. apply Hks. by right.
Qed.

Lemma entropies_loop_safe ks acc :
  safe_total (counts_type c) total_types →
  safe_total (counts_token c) total_tokens →
  (∀ env, env ∈ ks → env ∈ dom (counts_type c)) →
  for_each ks body acc =
  Ok (foldl (scheme_step (counts_type c) total_types) acc.1 ks,
      foldl (scheme_step (counts_token c) total_tokens) acc.2 ks).
Proof.
  intros HsT HsK. revert acc. induction ks as [|env ks IH]; intros [aT aK] Hks.
  - done.
  - assert (Henv : env ∈ dom (counts_type c)) by (apply Hks; left).
    simpl. rewrite (env_entropy_safe (counts_type c)) by done. simpl.
    rewrite (env_entropy_safe (counts_token c));
      [|by rewrite dom_token|done|done]. simpl.
    rewrite IH; [done|]. intros e He. apply Hks. by right.
Qed.

End both_schemes.

End entropy_stage.

Section entropy_sums.

Variables phoneX phoneY : string.

Abbreviation comb' d env := (combined phoneX phoneY d env).

Lemma scheme_lookup d total ks (E P : gmap string R) env :
  (foldl (scheme_step phoneX phoneY d total) (E, P) ks).1 !! env =
    (if decide (env ∈ ks ∧ 0 < comb' d env)
     then Some (env_H phoneX phoneY d env) else E !! env) ∧
  (foldl (scheme_step phoneX phoneY d total) (E, P) ks).2 !! env =
    (if decide (env ∈ ks ∧ 0 < comb' d env)
     then Some (env_p phoneX phoneY d total env) else P !! env).
Proof.
  revert E P. induction ks as [|k ks IH]; intros E P.
  - cbn [foldl fst snd].
    destruct (decide (env ∈ [] ∧ 0 < comb' d env)) as [[H _]|_]; [|done].
    by apply elem_of_nil in H.
  - cbn [foldl].
    assert (Hcons : ∀ (A : Type) (u v w : A),
      (env ∈ ks ∧ 0 < comb' d env → u = v) →
      (¬ (env ∈ ks ∧ 0 < comb' d env) →
       (if decide (env = k ∧ 0 < comb' d env) then v else w) = u) →
      u = if decide (env ∈ k :: ks ∧ 0 < comb' d env) then v else w).
    { intros A u v w H1 H2.
      destruct (decide (env ∈ ks ∧ 0 < comb' d env)) as [Hyes|Hno].
      - rewrite decide_True; [by apply H1|]. destruct Hyes. split; [by right|done].
      - rewrite <- (H2 Hno).
        destruct (decide (env = k ∧ 0 < comb' d env)) as [[-> Hp]|Hk].
        + rewrite decide_True; [done|]. split; [left|done].
        + rewrite decide_False; [done|]. intros [Hin Hp].
          apply elem_of_cons in Hin as [->|Hin]; [by apply Hk|by apply Hno]. }
    unfold scheme_step at 2 4.
    destruct (Z.ltb_spec 0 (comb' d k)) as [Hk|Hk]; cbn [fst snd].
    + destruct (IH (<[k := env_H phoneX phoneY d k]> E)
                   (<[k := env_p phoneX phoneY d total k]> P)) as [H1 H2].
      rewrite H1, H2. clear H1 H2.
      split; apply Hcons.
      * intros Hyes. by rewrite decide_True.
      * intros Hno. rewrite (decide_False (P := env ∈ ks ∧ _)) by done.
        destruct (decide (env = k ∧ 0 < comb' d env)) as [[-> _]|Hne].
        -- by rewrite lookup_insert_eq.
        -- destruct (decide (env = k)) as [->|Hek].
           ++ rewrite lookup_insert_eq.
              destruct (decide (k ∈ ks ∧ 0 < comb' d k)); [done|].
              exfalso. by apply Hne.
           ++ by rewrite lookup_insert_ne.
      * intros Hyes. by rewrite decide_True.
      * intros Hno. rewrite (decide_False (P := env ∈ ks ∧ _)) by done.
        destruct (decide (env = k ∧ 0 < comb' d env)) as [[-> _]|Hne].
        -- by rewrite lookup_insert_eq.
        -- destruct (decide (env = k)) as [->|Hek].
           ++ rewrite lookup_insert_eq.
              destruct (decide (k ∈ ks ∧ 0 < comb' d k)); [done|].
              exfalso. by apply Hne.
           ++ by rewrite lookup_insert_ne.
    + destruct (IH E P) as [H1 H2]. rewrite H1, H2. clear H1 H2.
      split; apply Hcons.
      * intros Hyes. by rewrite decide_True.
      * intros Hno. rewrite (decide_False (P := env ∈ ks ∧ _)) by done.
        rewrite decide_False; [done|]. intros [-> Hp]. lia.
      * intros Hyes. by rewrite decide_True.
      * intros Hno. rewrite (decide_False (P := env ∈ ks ∧ _)) by done.
        rewrite decide_False; [done|]. intros [-> Hp]. lia.
Qed.

Lemma sumR_perm (l1 l2 : list R) : l1 ≡ₚ l2 → sumR l1 = sumR l2.
Proof.
  unfold sumR. induction 1; simpl; lra.
Qed.

Lemma sumR_ext {A} (f g : A → R) (l : list A) :
  (∀ a, a ∈ l → f a = g a) → sumR (f <$> l) = sumR (g <$> l).
Proof.
  intros Hfg. induction l as [|a l IH]; [done|].
  rewrite !fmap_cons. unfold sumR in *. simpl.
  rewrite (Hfg a) by left. rewrite IH; [done|].
  intros b Hb. apply Hfg. by right.
Qed.

Lemma sumR_weights d total (l : list string) :
  total ≠ 0 →
  sumR (env_p phoneX phoneY d total <$> l) =
  (IZR (sumZ ((λ env, comb' d env) <$> l)) / IZR total)%R.
Proof.
  intros Ht. assert (IZR total ≠ 0%R) by (by apply not_0_IZR).
  induction l as [|env l IH].
  - unfold sumR, sumZ. simpl. field. done.
  - rewrite !fmap_cons.
    change (sumR (env_p phoneX phoneY d total env :: (env_p phoneX phoneY d total <$> l)))
      with (env_p phoneX phoneY d total env + sumR (env_p phoneX phoneY d total <$> l))%R.
    change (sumZ (comb' d env :: ((λ env0, comb' d env0) <$> l)))
      with (comb' d env + sumZ ((λ env0, comb' d env0) <$> l)).
    rewrite IH, plus_IZR. unfold env_p. field. done.
Qed.

Lemma sumZ_filter_pos (f : string → Z) (l : list string) :
  (∀ a, a ∈ l → 0 ≤ f a) →
  sumZ (f <$> filter (λ a, 0 < f a) l) = sumZ (f <$> l).
Proof.
  intros Hf. induction l as [|a l IH]; [done|].
  rewrite filter_cons.
  assert (IH' : sumZ (f <$> filter (λ a, 0 < f a) l) = sumZ (f <$> l)).
  { apply IH. intros b Hb. apply Hf. by right. }
  pose proof (Hf a (list_elem_of_here _ _)) as Ha.
  destruct (decide (0 < f a)).
  - rewrite !fmap_cons.
    change (sumZ (f a :: (f <$> filter (λ a0, 0 < f a0) l)))
      with (f a + sumZ (f <$> filter (λ a0, 0 < f a0) l)).
    change (sumZ (f a :: (f <$> l))) with (f a + sumZ (f <$> l)). lia.
  - rewrite fmap_cons.
    change (sumZ (f a :: (f <$> l))) with (f a + sumZ (f <$> l)). lia.
Qed.

(** The weights of the environments that have an entropy add up to 1. *)
Lemma sumZ_perm (l1 l2 : list Z) : l1 ≡ₚ l2 → sumZ l1 = sumZ l2.
Proof. unfold sumZ. induction 1; simpl; lia. Qed.

Lemma weights_sum_to_one d total (ks : list string) :
  NoDup ks → (∀ env, env ∈ ks ↔ env ∈ dom d) →
  (∀ env, env ∈ dom d → 0 ≤ comb' d env) →
  total = sumZ ((λ env, comb' d env) <$> keys d) → 0 < total →
  let r := foldl (scheme_step phoneX phoneY d total) (∅, ∅) ks in
  weight_sum r.1 r.2 = 1%R.
Proof.
  intros Hnd Hks Hnn Htot Hpos r. unfold weight_sum.
  assert (Hkeys : keys d ≡ₚ ks).
  { apply NoDup_Permutation; [apply NoDup_keys|done|].
    intros env. by rewrite elem_of_keys, Hks. }
  assert (Hperm : keys r.1 ≡ₚ filter (λ env, 0 < comb' d env) ks).
  { apply NoDup_Permutation.
    - apply NoDup_keys.
    - by apply NoDup_filter.
    - intros env. rewrite elem_of_keys, elem_of_dom, list_elem_of_filter.
      unfold r. rewrite (proj1 (scheme_lookup d total ks ∅ ∅ env)).
      destruct (decide _) as [[Hin Hp]|Hno].
      + split; [done|]. intros _. by eexists.
      + rewrite lookup_empty. split; [by intros [? ?]|]. intros [? ?]. by destruct Hno. }
  rewrite (sumR_perm _ _ (fmap_Permutation _ _ _ Hperm)).
  rewrite (sumR_ext _ (env_p phoneX phoneY d total)).
  - rewrite sumR_weights by lia.
    rewrite sumZ_filter_pos.
    + rewrite <- (sumZ_perm _ _ (fmap_Permutation _ _ _ Hkeys)), <- Htot.
      field. apply not_0_IZR. lia.
    + intros env Henv. apply Hnn. by apply Hks.
  - intros env [Hp Hin]%list_elem_of_filter.
    unfold r. rewrite (proj2 (scheme_lookup d total ks ∅ ∅ env)).
    by rewrite decide_True.
Qed.

(** The loop that adds up [p(env)·H(env)]. *)
Lemma overall_entropy_loop (E P : gmap string R) ks acc :
  (∀ env, env ∈ ks → is_Some (E !! env) ∧ is_Some (P !! env)) →
  for_each ks
    (λ overall env, p ← dict_get P env; H ← dict_get E env; Ok (overall + p * H)%R)
    acc
  = Ok (acc + sumR ((λ env, default 0 (P !! env) * default 0 (E !! env)) <$> ks))%R.
Proof.
  revert acc. induction ks as [|env ks IH]; intros acc Hks.
  - rewrite fmap_nil. unfold sumR. simpl. f_equal. lra.
  - destruct (Hks env (list_elem_of_here _ _)) as [[h Hh] [p Hp]].
    rewrite fmap_cons.
    change (sumR (?a :: ?l)) with (a + sumR l)%R.
    rewrite Hh, Hp. cbn [default].
    set (rest := sumR _) in *.
    cbn [for_each].
    assert (HP : dict_get P env = Ok p) by (by apply dict_get_Ok).
    assert (HE : dict_get E env = Ok h) by (by apply dict_get_Ok).
    rewrite HP. simpl. rewrite HE. simpl.
    rewrite IH by (intros e He; apply Hks; by right).
    f_equal. lra.
Qed.

Lemma overall_entropy_ok (E P : gmap string R) :
  dom E = dom P →
  overall_entropy E P =
  Ok (sumR ((λ env, default 0 (P !! env) * default 0 (E !! env)) <$> keys E))%R.
Proof.
  intros Hdom. unfold overall_entropy. rewrite overall_entropy_loop.
  - f_equal. lra.
  - intros env Henv%elem_of_keys. split; apply elem_of_dom; [done|by rewrite <- Hdom].
Qed.

Lemma scheme_dom d total ks :
  let r := foldl (scheme_step phoneX phoneY d total) (∅, ∅) ks in
  dom r.1 = dom r.2.
Proof.
  intros r. apply set_eq. intros env. rewrite !elem_of_dom. unfold r.
  rewrite (proj1 (scheme_lookup d total ks ∅ ∅ env)),
          (proj2 (scheme_lookup d total ks ∅ ∅ env)).
  destruct (decide _); [|by rewrite !lookup_empty].
  split; intros _; by eexists.
Qed.

End entropy_sums.

(** ** The aggregator *)

Lemma scan_full_cells phoneX phoneY env_function df c :
  scan phoneX phoneY env_function df = Ok c →
  dom (counts_token c) = dom (counts_type c) ∧
  full_cells phoneX phoneY (counts_type c) ∧
  full_cells phoneX phoneY (counts_token c).
Proof.
  intros Hscan.
  destruct (scan_dom _ _ _ df c "" Hscan) as [_ Hdk].
  split; [done|]. split.
  - intros env Henv.
    destruct (scan_cells _ _ _ df c env phoneX Hscan (or_introl eq_refl) Henv) as [HX _].
    destruct (scan_cells _ _ _ df c env phoneY Hscan (or_intror eq_refl) Henv) as [HY _].
    eauto.
  - intros env Henv. rewrite Hdk in Henv.
    destruct (scan_cells _ _ _ df c env phoneX Hscan (or_introl eq_refl) Henv) as [_ HX].
    destruct (scan_cells _ _ _ df c env phoneY Hscan (or_intror eq_refl) Henv) as [_ HY].
    eauto.
Qed.

Lemma token_mass_nonneg env_function env ph df :
  wf_dataset df → 0 ≤ token_mass env_function env ph df.
Proof.
  intros Hwf. unfold token_mass. apply sumZ_nonneg.
  apply Forall_fmap. unfold wf_dataset in Hwf.
  eapply Forall_impl; [exact Hwf|]. intros row Hrow.
  pose proof (Nat2Z.is_nonneg (length (positions_of env_function env ph row))).
  unfold compose, len. cbv beta in *. nia.
Qed.

Lemma scan_nonneg phoneX phoneY env_function df c env :
  scan phoneX phoneY env_function df = Ok c →
  0 ≤ combined phoneX phoneY (counts_type c) env ∧
  (wf_dataset df → 0 ≤ combined phoneX phoneY (counts_token c) env).
Proof.
  intros Hscan. unfold combined.
  destruct (scan_counts _ _ _ df c env phoneX Hscan (or_introl eq_refl))
    as (HtX & HkX).
  destruct (scan_counts _ _ _ df c env phoneY Hscan (or_intror eq_refl))
    as (HtY & HkY).
  rewrite HtX, HtY, HkX, HkY. split; [lia|].
  intros Hwf.
  pose proof (token_mass_nonneg env_function env phoneX df Hwf).
  pose proof (token_mass_nonneg env_function env phoneY df Hwf). lia.
Qed.

(** The stages of a run of [pprm_for_pair] that returned. *)
Lemma pprm_for_pair_inv phoneX phoneY env_function df r :
  pprm_for_pair phoneX phoneY env_function df = Ok r →
  ∃ c total_types total_tokens,
    scan phoneX phoneY env_function df = Ok c ∧
    total_of phoneX phoneY (counts_type c) = Ok total_types ∧
    total_of phoneX phoneY (counts_token c) = Ok total_tokens ∧
    env_type_counts r = counts_type c ∧
    env_token_counts r = counts_token c ∧
    (env_type_entropies r, env_type_probs r) =
      foldl (scheme_step phoneX phoneY (counts_type c) total_types) (∅, ∅)
            (keys (counts_type c)) ∧
    (env_token_entropies r, env_token_probs r) =
      foldl (scheme_step phoneX phoneY (counts_token c) total_tokens) (∅, ∅)
            (keys (counts_type c)) ∧
    overall_entropy (env_type_entropies r) (env_type_probs r)
      = Ok (type_entropy r) ∧
    overall_entropy (env_token_entropies r) (env_token_probs r)
      = Ok (token_entropy r).
Proof.
  intros Hrun. unfold pprm_for_pair in Hrun.
  apply bind_Ok in Hrun as (c & Hscan & Hrun).
  apply bind_Ok in Hrun as (Tt & HTt & Hrun).
  apply bind_Ok in Hrun as (Tk & HTk & Hrun).
  apply bind_Ok in Hrun as ([[Et Pt] [Ek Pk]] & Hdet & Hrun).
  apply bind_Ok in Hrun as (ot & Hot & Hrun).
  apply bind_Ok in Hrun as (ok & Hok & [= <-]).
  destruct (scan_full_cells _ _ _ df c Hscan) as (Hdk & HfT & HfK).
  unfold determine_entropies in Hdet.
  apply (entropies_loop_inv phoneX phoneY c Tt Tk Hdk HfT HfK) in Hdet;
    [|intros env; by rewrite elem_of_keys].
  injection Hdet as HT HK. simpl in HT, HK.
  exists c, Tt, Tk. simpl. rewrite <- HT, <- HK. done.
Qed.

(** C4: in a run of [pprm_for_pair] that returned, if the total type count
    is positive the weights [p(env)] of the environments that have a type
    entropy add up to 1; for a data frame with non-negative frequencies the
    same holds for the token scheme when the total token count is
    positive. *)
Theorem environment_weights_sum_to_one phoneX phoneY env_function df r :
  pprm_for_pair phoneX phoneY env_function df = Ok r →
  (∀ total_types,
     total_of phoneX phoneY (env_type_counts r) = Ok total_types →
     0 < total_types →
     weight_sum (env_type_entropies r) (env_type_probs r) = 1%R) ∧
  (wf_dataset df →
   ∀ total_tokens,
     total_of phoneX phoneY (env_token_counts r) = Ok total_tokens →
     0 < total_tokens →
     weight_sum (env_token_entropies r) (env_token_probs r) = 1%R).
Proof.
  intros Hrun.
  destruct (pprm_for_pair_inv _ _ _ df r Hrun)
    as (c & Tt & Tk & Hscan & HTt & HTk & Hct & Hck & HT & HK & _ & _).
  destruct (scan_full_cells _ _ _ df c Hscan) as (Hdk & HfT & HfK).
  rewrite Hct, Hck. split.
  - intros T HT' Hpos. rewrite HTt in HT'. injection HT' as <-.
    rewrite (total_of_ok _ _ _ HfT) in HTt. injection HTt as HTt.
    pose proof (weights_sum_to_one phoneX phoneY (counts_type c) Tt
                  (keys (counts_type c))) as Hsum.
    rewrite <- HT in Hsum. apply Hsum; try done.
    + apply NoDup_keys.
    + intros env. apply elem_of_keys.
    + intros env _. by apply (scan_nonneg _ _ env_function df).
  - intros Hwf T HT' Hpos. rewrite HTk in HT'. injection HT' as <-.
    rewrite (total_of_ok _ _ _ HfK) in HTk. injection HTk as HTk.
    pose proof (weights_sum_to_one phoneX phoneY (counts_token c) Tk
                  (keys (counts_type c))) as Hsum.
    rewrite <- HK in Hsum. apply Hsum; try done.
    + apply NoDup_keys.
    + intros env. by rewrite elem_of_keys, Hdk.
    + intros env _. by apply (scan_nonneg _ _ env_function df).
Qed.

Lemma sumZ_ge_elem (f : string → Z) (l : list string) (a : string) :
  (∀ b, b ∈ l → 0 ≤ f b) → a ∈ l → f a ≤ sumZ (f <$> l).
Proof.
  intros Hnn Ha. induction l as [|b l IH]; [by apply elem_of_nil in Ha|].
  rewrite fmap_cons. change (sumZ (f b :: (f <$> l))) with (f b + sumZ (f <$> l)).
  assert (0 ≤ sumZ (f <$> l)).
  { apply sumZ_nonneg, Forall_fmap, Forall_forall. intros x Hx. apply Hnn. by right. }
  apply elem_of_cons in Ha as [->|Ha].
  - lia.
  - pose proof (Hnn b (list_elem_of_here _ _)).
    assert (f a ≤ sumZ (f <$> l)); [|lia].
    apply IH; [|done]. intros x Hx. apply Hnn. by right.
Qed.

Lemma safe_total_sum phoneX phoneY (d : gmap string (gmap string Z)) :
  (∀ env, 0 ≤ combined phoneX phoneY d env) →
  safe_total phoneX phoneY d (sumZ ((λ env, combined phoneX phoneY d env) <$> keys d)).
Proof.
  intros Hnn env Henv Hpos.
  pose proof (sumZ_ge_elem (λ env, combined phoneX phoneY d env) (keys d) env
                (λ b _, Hnn b) (proj2 (elem_of_keys d env) Henv)) as Hle.
  simpl in Hle. lia.
Qed.

(** After a scan that returned, on non-negative frequencies, the entropy
    stage never raises; this is the result it builds. *)
Lemma pprm_for_pair_after_scan phoneX phoneY env_function df c :
  scan phoneX phoneY env_function df = Ok c → wf_dataset df →
  let total_types :=
    sumZ ((λ env, combined phoneX phoneY (counts_type c) env) <$> keys (counts_type c)) in
  let total_tokens :=
    sumZ ((λ env, combined phoneX phoneY (counts_token c) env) <$> keys (counts_token c)) in
  let ty := foldl (scheme_step phoneX phoneY (counts_type c) total_types) (∅, ∅)
                  (keys (counts_type c)) in
  let tk := foldl (scheme_step phoneX phoneY (counts_token c) total_tokens) (∅, ∅)
                  (keys (counts_type c)) in
  pprm_for_pair phoneX phoneY env_function df =
  Ok {| pair := "[" +:+ phoneX +:+ "]~[" +:+ phoneY +:+ "]";
        type_entropy :=
          sumR ((λ env, default 0 (ty.2 !! env) * default 0 (ty.1 !! env))%R
                  <$> keys ty.1);
        token_entropy :=
          sumR ((λ env, default 0 (tk.2 !! env) * default 0 (tk.1 !! env))%R
                  <$> keys tk.1);
        env_type_counts := counts_type c;
        env_token_counts := counts_token c;
        env_type_entropies := ty.1;
        env_token_entropies := tk.1;
        env_type_probs := ty.2;
        env_token_probs := tk.2 |}.
Proof.
  intros Hscan Hwf Tt Tk ty tk.
  destruct (scan_full_cells _ _ _ df c Hscan) as (Hdk & HfT & HfK).
  unfold pprm_for_pair. rewrite Hscan. simpl.
  rewrite (total_of_ok _ _ _ HfT). simpl.
  rewrite (total_of_ok _ _ _ HfK). simpl.
  fold Tt Tk. unfold determine_entropies.
  rewrite (entropies_loop_safe phoneX phoneY c Tt Tk Hdk HfT HfK).
  - simpl. fold ty tk. destruct ty as [Et Pt] eqn:Ety, tk as [Ek Pk] eqn:Etk. simpl.
    assert (HdT : dom Et = dom Pt).
    { pose proof (scheme_dom phoneX phoneY (counts_type c) Tt (keys (counts_type c))) as H.
      simpl in H. fold ty in H. by rewrite Ety in H. }
    assert (HdK : dom Ek = dom Pk).
    { pose proof (scheme_dom phoneX phoneY (counts_token c) Tk (keys (counts_type c))) as H.
      simpl in H. fold tk in H. by rewrite Etk in H. }
    rewrite (overall_entropy_ok _ _ HdT). simpl.
    rewrite (overall_entropy_ok _ _ HdK). simpl. done.
  - apply safe_total_sum. intros env. by apply (scan_nonneg _ _ env_function df).
  - apply safe_total_sum. intros env. by apply (scan_nonneg _ _ env_function df).
  - intros env. by rewrite elem_of_keys.
Qed.

(** ** Two data frames of the design document *)

Definition ich : list WordRecord :=
  [ {| Word := "ich"; Phono := "I.C"; Frequency := 10 |} ].

Definition haben_sagen : list WordRecord :=
  [ {| Word := "haben"; Phono := "h.a.b.@.n"; Frequency := 100 |};
    {| Word := "sagen"; Phono := "z.a.g.@.n"; Frequency := 50 |} ].

Definition ich_counts : counts :=
  {| counts_type :=
       {[ "WordFinal_AfterFrontOrCons" := <["C" := 1]> {[ "x" := 0 ]} ]};
     counts_token :=
       {[ "WordFinal_AfterFrontOrCons" := <["C" := 10]> {[ "x" := 0 ]} ]};
     counts_type_tracker :=
       {[ "WordFinal_AfterFrontOrCons" := <["C" := {["ich"]}]> {[ "x" := ∅ ]} ]} |}.

Lemma scan_ich : scan "x" "C" env_x_c ich = Ok ich_counts.
Proof. vm_compute. reflexivity. Qed.

Lemma plog2_0 : plog2 0 = 0%R.
Proof. unfold plog2. destruct (Rlt_dec 0 0); lra. Qed.

Lemma plog2_1 : plog2 1 = 0%R.
Proof.
  unfold plog2, log2r. pose proof ln2_pos.
  destruct (Rlt_dec 0 1); [|lra]. rewrite ln_1. field. lra.
Qed.

Lemma keys_singleton {V} (k : string) (v : V) : keys ({[k := v]} : gmap string V) = [k].
Proof. unfold keys. by rewrite map_to_list_singleton. Qed.

Lemma pprm_for_pair_ich :
  pprm_for_pair "x" "C" env_x_c ich =
  Ok {| pair := "[x]~[C]";
        type_entropy := 0;
        token_entropy := 0;
        env_type_counts := counts_type ich_counts;
        env_token_counts := counts_token ich_counts;
        env_type_entropies := {[ "WordFinal_AfterFrontOrCons" := 0%R ]};
        env_token_entropies := {[ "WordFinal_AfterFrontOrCons" := 0%R ]};
        env_type_probs := {[ "WordFinal_AfterFrontOrCons" := 1%R ]};
        env_token_probs := {[ "WordFinal_AfterFrontOrCons" := 1%R ]} |}.
Proof.
  assert (Hwf : wf_dataset ich) by (repeat constructor; simpl; lia).
  rewrite (pprm_for_pair_after_scan "x" "C" env_x_c ich ich_counts scan_ich Hwf).
  cbv zeta.
  set (WF := "WordFinal_AfterFrontOrCons").
  assert (Hkt : keys (counts_type ich_counts) = [WF]) by apply keys_singleton.
  assert (Hkk : keys (counts_token ich_counts) = [WF]) by apply keys_singleton.
  rewrite Hkt, Hkk.
  assert (HxT : count_of (counts_type ich_counts) WF "x" = 0) by reflexivity.
  assert (HxK : count_of (counts_token ich_counts) WF "x" = 0) by reflexivity.
  assert (HcT : combined "x" "C" (counts_type ich_counts) WF = 1) by reflexivity.
  assert (HcK : combined "x" "C" (counts_token ich_counts) WF = 10) by reflexivity.
  assert (HT : sumZ ((λ env, combined "x" "C" (counts_type ich_counts) env) <$> [WF]) = 1)
    by reflexivity.
  assert (HK : sumZ ((λ env, combined "x" "C" (counts_token ich_counts) env) <$> [WF]) = 10)
    by reflexivity.
  rewrite HT, HK. cbn [foldl]. unfold scheme_step, env_H, env_p.
  rewrite HxT, HxK, HcT, HcK. cbn [Z.ltb Z.compare fst snd].
  rewrite !insert_empty.
  replace (IZR 0 / IZR 1)%R with 0%R by (field).
  replace (IZR 0 / IZR 10)%R with 0%R by (field).
  replace (1 - 0)%R with 1%R by lra.
  rewrite plog2_0, plog2_1.
  replace (0 - 0 - 0)%R with 0%R by lra.
  replace (IZR 1 / IZR 1)%R with 1%R by (field).
  replace (IZR 10 / IZR 10)%R with 1%R by (field).
  rewrite !keys_singleton. rewrite !fmap_cons, !fmap_nil.
  rewrite !lookup_singleton_eq. unfold sumR.
  cbn [foldr default from_option]. unfold Datatypes.id.
  replace (1 * 0 + 0)%R with 0%R by lra.
  reflexivity.
Qed.

(** Neither target phone occurs in any phone sequence of the data frame. *)
Definition pair_absent (phoneX phoneY : string) (df : list WordRecord) : Prop :=
  Forall (λ row, Forall (λ ph, ph ≠ phoneX ∧ ph ≠ phoneY)
                        (phone_sequence (Phono row))) df.

Lemma for_each_unchanged {A S} (l : list A) (body : S → A → res S) (s : S) :
  (∀ a, a ∈ l → body s a = Ok s) → for_each l body s = Ok s.
Proof.
  intros Hbody. induction l as [|a l IH]; [done|].
  simpl. rewrite Hbody by left. simpl. apply IH. intros b Hb. apply Hbody. by right.
Qed.

Lemma elem_of_enumerate_from {A} (k : Z) (l : list A) (i : Z) (a : A) :
  (i, a) ∈ enumerate_from k l → a ∈ l ∧ l !! Z.to_nat (i - k) = Some a ∧ k ≤ i.
Proof.
  revert k. induction l as [|b l IH]; intros k Hin; [by apply elem_of_nil in Hin|].
  simpl in Hin. apply elem_of_cons in Hin as [[= -> ->]|Hin].
  - split; [left|]. split; [|lia]. by replace (k - k) with 0 by lia.
  - destruct (IH _ Hin) as (Ha & Hl & Hk). split; [by right|]. split; [|lia].
    replace (Z.to_nat (i - k)) with (S (Z.to_nat (i - (k + 1)))) by lia. done.
Qed.

Lemma scan_pair_absent phoneX phoneY env_function df :
  pair_absent phoneX phoneY df →
  scan phoneX phoneY env_function df = Ok no_counts.
Proof.
  intros Habs. unfold scan. apply for_each_unchanged.
  intros row Hrow. unfold pair_absent in Habs. rewrite Forall_forall in Habs.
  specialize (Habs row Hrow). rewrite Forall_forall in Habs.
  unfold scan_row. apply for_each_unchanged.
  intros [i ph] Hin. apply elem_of_enumerate_from in Hin as (Hph & _ & _).
  destruct (Habs ph Hph) as [HX HY]. unfold visit.
  destruct (bool_decide_reflect (ph = phoneX)); [done|].
  destruct (bool_decide_reflect (ph = phoneY)); done.
Qed.

Lemma pprm_for_pair_pair_absent phoneX phoneY env_function df :
  pair_absent phoneX phoneY df →
  pprm_for_pair phoneX phoneY env_function df =
  Ok {| pair := "[" +:+ phoneX +:+ "]~[" +:+ phoneY +:+ "]";
        type_entropy := 0;
        token_entropy := 0;
        env_type_counts := ∅;
        env_token_counts := ∅;
        env_type_entropies := ∅;
        env_token_entropies := ∅;
        env_type_probs := ∅;
        env_token_probs := ∅ |}.
Proof.
  intros Habs. unfold pprm_for_pair.
  rewrite (scan_pair_absent _ _ _ _ Habs). reflexivity.
Qed.

Lemma haben_sagen_without_d_t : pair_absent "d" "t" haben_sagen.
Proof. unfold pair_absent. apply (bool_decide_unpack _). vm_compute. exact I. Qed.

(** C1, as stated, fails: for the data frame of the design document and a
    pair that does not occur in it, the result holds the number 0 as type
    and as token entropy, a value inside the range of binary entropies, and
    not a marker of missing data. *)
Lemma absent_pair_entropies_are_not_undefined :
  ∃ r, pprm_for_pair "d" "t" env_d_t haben_sagen = Ok r ∧
       type_entropy r = 0%R ∧ token_entropy r = 0%R ∧
       ¬ entropy_undefined (type_entropy r) ∧
       ¬ entropy_undefined (token_entropy r).
Proof.
  eexists. split; [apply pprm_for_pair_pair_absent, haben_sagen_without_d_t|].
  simpl. unfold entropy_undefined. repeat split; try done; intros H; apply H; lra.
Qed.

(** C1, amended: when neither phone occurs in the data frame,
    [pprm_for_pair] evaluates no division and returns normally; the type
    and the token entropy of the result are the number 0, both totals are 0
    and every per-environment map is empty. *)
Theorem absent_pair_returns_zero_entropies phoneX phoneY env_function df :
  pair_absent phoneX phoneY df →
  ∃ r, pprm_for_pair phoneX phoneY env_function df = Ok r ∧
       type_entropy r = 0%R ∧ token_entropy r = 0%R ∧
       total_of phoneX phoneY (env_type_counts r) = Ok 0 ∧
       total_of phoneX phoneY (env_token_counts r) = Ok 0 ∧
       env_type_counts r = ∅ ∧ env_token_counts r = ∅ ∧
       env_type_entropies r = ∅ ∧ env_token_entropies r = ∅ ∧
       env_type_probs r = ∅ ∧ env_token_probs r = ∅.
Proof.
  intros Habs. eexists. split; [by apply pprm_for_pair_pair_absent|].
  simpl. repeat split; reflexivity.
Qed.

Lemma absent_pair_returns_zero_entropies_witness :
  ∃ r, pprm_for_pair "d" "t" env_d_t haben_sagen = Ok r ∧
       type_entropy r = 0%R ∧ token_entropy r = 0%R.
Proof.
  destruct (absent_pair_returns_zero_entropies "d" "t" env_d_t haben_sagen)
    as (r & Hr & Ht & Hk & _).
  - unfold pair_absent. apply (bool_decide_unpack _). vm_compute. exact I.
  - exists r. auto.
Defined.

(** C6: the single record "ich", transcribed [I.C] with frequency 10, under
    the pair x/C and the classifier [env_x_c]: the one occurrence of [C] is
    at the last index after the front vowel [I], so its environment is
    [WordFinal_AfterFrontOrCons]; the type count of [C] is 1 and its token
    count 10, the counts of [x] are 0, the entropy of the environment is 0
    in both schemes, and so are the overall type and token entropies. *)
Theorem ich_scenario :
  let WF := "WordFinal_AfterFrontOrCons" in
  phone_sequence "I.C" = ["I"; "C"] ∧
  len ["I"; "C"] - 1 = 1 ∧
  is_front_vowel "I" = true ∧ is_back_vowel "I" = false ∧
  env_x_c ["I"; "C"] 1 = Ok WF ∧
  ∃ r, pprm_for_pair "x" "C" env_x_c ich = Ok r ∧
       dom (env_type_counts r) = {[WF]} ∧
       dom (env_token_counts r) = {[WF]} ∧
       cell_get (env_type_counts r) WF "C" = Ok 1 ∧
       cell_get (env_token_counts r) WF "C" = Ok 10 ∧
       cell_get (env_type_counts r) WF "x" = Ok 0 ∧
       cell_get (env_token_counts r) WF "x" = Ok 0 ∧
       env_type_entropies r = {[WF := 0%R]} ∧
       env_token_entropies r = {[WF := 0%R]} ∧
       type_entropy r = 0%R ∧ token_entropy r = 0%R.
Proof.
  intros WF. repeat (split; [reflexivity|]).
  eexists. split; [apply pprm_for_pair_ich|]. simpl.
  split; [apply dom_singleton_L|]. split; [apply dom_singleton_L|].
  repeat split; reflexivity.
Qed.

Lemma environment_weights_sum_to_one_witness :
  ∃ r, pprm_for_pair "x" "C" env_x_c ich = Ok r ∧
       weight_sum (env_type_entropies r) (env_type_probs r) = 1%R ∧
       weight_sum (env_token_entropies r) (env_token_probs r) = 1%R.
Proof.
  eexists. split; [apply pprm_for_pair_ich|].
  destruct (environment_weights_sum_to_one "x" "C" env_x_c ich _ pprm_for_pair_ich)
    as [Hty Htk].
  split.
  - apply (Hty 1); [reflexivity|lia].
  - apply (Htk ltac:(repeat constructor; simpl; lia) 10); [reflexivity|lia].
Defined.

(** * Further properties of the code *)

(** ** The transcription tokenizer *)

(** A phone that does not contain the delimiter. *)
Definition dot_free (ph : string) : Prop := "."%char ∉ list_ascii_of_string ph.

Lemma split_cons_inv (sep : ascii) (s : string) : ∃ t ts, split sep s = t :: ts.
Proof.
  induction s as [|c s (t & ts & IH)]; simpl; [by eauto|].
  destruct (Ascii.eqb c sep); [by eauto|]. rewrite IH. eauto.
Qed.

(** [str.split] loses nothing: joining the segments gives the string back. *)
Lemma concat_split (sep : ascii) (s : string) :
  String.concat (String sep "") (split sep s) = s.
Proof.
  induction s as [|c s IH]; [done|]. simpl.
  destruct (Ascii.eqb_spec c sep) as [->|Hne].
  - destruct (split_cons_inv sep s) as (t & ts & E). rewrite E in IH |- *.
    change (String.concat (String sep "") ("" :: t :: ts))
      with (String sep (String.concat (String sep "") (t :: ts))).
    by rewrite IH.
  - destruct (split_cons_inv sep s) as (t & ts & E). rewrite E in IH |- *.
    destruct ts as [|q ts].
    + change (String c t = String c s). f_equal. exact IH.
    + change (String.concat (String sep "") (String c t :: q :: ts))
        with (String c (String.concat (String sep "") (t :: q :: ts))).
      by rewrite IH.
Qed.

Lemma split_app (sep : ascii) (s1 s2 : string) :
  split sep (s1 +:+ String sep s2) = split sep s1 ++ split sep s2.
Proof.
  induction s1 as [|c s1 IH]; simpl.
  - by rewrite Ascii.eqb_refl.
  - destruct (Ascii.eqb c sep); [by rewrite IH|].
    rewrite IH. by destruct (split_cons_inv sep s1) as (t & ts & ->).
Qed.

Lemma split_segments_free (sep : ascii) (s : string) :
  Forall (λ t, sep ∉ list_ascii_of_string t) (split sep s).
Proof.
  induction s as [|c s IH]; simpl.
  - repeat constructor. by intros ?%elem_of_nil.
  - destruct (Ascii.eqb_spec c sep) as [->|Hne].
    + constructor; [by intros ?%elem_of_nil|done].
    + destruct (split sep s) as [|t ts].
      * repeat constructor. simpl. intros [?|?%elem_of_nil]%elem_of_cons; done.
      * apply Forall_cons in IH as [Ht Hts]. constructor; [|done].
        simpl. intros [?|?]%elem_of_cons; done.
Qed.

Lemma split_free (sep : ascii) (s : string) :
  sep ∉ list_ascii_of_string s → split sep s = [s].
Proof.
  induction s as [|c s IH]; [done|]. simpl. intros Hfree.
  destruct (Ascii.eqb_spec c sep) as [->|Hne]; [exfalso; apply Hfree; left|].
  rewrite IH; [done|]. intros Hin. apply Hfree. by right.
Qed.

Lemma nonempty_true (t : string) : nonempty t = true ↔ t ≠ "".
Proof. destruct t; simpl; split; congruence. Qed.

(** Every phone of a phone sequence is non-empty and free of the delimiter:
    empty segments, from leading, trailing or doubled delimiters, are
    dropped. *)
Theorem phone_sequence_phones (cpsampa : string) :
  Forall (λ ph, ph ≠ "" ∧ dot_free ph) (phone_sequence cpsampa).
Proof.
  unfold phone_sequence. apply Forall_forall. intros ph Hin.
  apply list_elem_of_filter in Hin as [Hne Hin]. split.
  - by apply nonempty_true.
  - pose proof (split_segments_free "." cpsampa) as Hfree.
    rewrite Forall_forall in Hfree. by apply Hfree.
Qed.

Lemma phone_sequence_app (s1 s2 : string) :
  phone_sequence (s1 +:+ String "." s2) = phone_sequence s1 ++ phone_sequence s2.
Proof. unfold phone_sequence. by rewrite split_app, filter_app. Qed.

(** Tokenizing composes: the phones of two transcriptions joined by a
    delimiter are the phones of the first followed by the phones of the
    second; so a delimiter in front or at the end changes nothing. *)
Theorem phone_sequence_compose (s1 s2 : string) :
  phone_sequence (s1 +:+ "." +:+ s2) = phone_sequence s1 ++ phone_sequence s2 ∧
  phone_sequence ("." +:+ s1) = phone_sequence s1 ∧
  phone_sequence (s1 +:+ ".") = phone_sequence s1.
Proof.
  split; [apply phone_sequence_app|]. split.
  - apply (phone_sequence_app "" s1).
  - rewrite (phone_sequence_app s1 ""). apply app_nil_r.
Qed.

Lemma phone_sequence_single (ph : string) :
  ph ≠ "" → dot_free ph → phone_sequence ph = [ph].
Proof.
  intros Hne Hfree. unfold phone_sequence. rewrite split_free by done.
  rewrite filter_cons, filter_nil. rewrite decide_True; [done|].
  by apply nonempty_true.
Qed.

(** Round trip: a list of non-empty, delimiter-free phones joined by the
    delimiter tokenizes back to the same list. *)
Theorem phone_sequence_concat (phones : list string) :
  Forall (λ ph, ph ≠ "" ∧ dot_free ph) phones →
  phone_sequence (String.concat "." phones) = phones.
Proof.
  induction 1 as [|ph phones [Hne Hfree] Hall IH]; [done|].
  destruct phones as [|q phones].
  - simpl. by apply phone_sequence_single.
  - change (String.concat "." (ph :: q :: phones))
      with (ph +:+ String "." (String.concat "." (q :: phones))).
    rewrite phone_sequence_app, IH, phone_sequence_single by done. done.
Qed.

Lemma phone_sequence_concat_witness :
  phone_sequence (String.concat "." ["h"; "a"; "b"; "@"; "n"]) = ["h"; "a"; "b"; "@"; "n"].
Proof.
  apply phone_sequence_concat.
  repeat constructor; try discriminate;
    unfold dot_free; simpl; intros H; repeat (apply elem_of_cons in H as [H|H];
      [discriminate H|]); by apply elem_of_nil in H.
Defined.

(** A transcription has no phones exactly when it consists of delimiters
    only; the empty transcription is one such. *)
Theorem phone_sequence_empty_iff (cpsampa : string) :
  phone_sequence cpsampa = [] ↔
  Forall (λ c, c = "."%char) (list_ascii_of_string cpsampa).
Proof.
  induction cpsampa as [|c s IH].
  - split; [constructor|done].
  - unfold phone_sequence in *. simpl.
    destruct (Ascii.eqb_spec c ".") as [->|Hne].
    + rewrite filter_cons, decide_False by (simpl; congruence).
      rewrite IH. split; [by constructor|]. by intros [_ ?]%Forall_cons.
    + destruct (split_cons_inv "." s) as (t & ts & E). rewrite E.
      rewrite filter_cons, decide_True by done.
      split; [done|]. by intros [? _]%Forall_cons.
Qed.

(** ** The phone classifier *)

(** The vowel symbols outside ASCII that the front and back tables list. *)
Definition ipa_vowels : list string := ["ø"; "œ"; "æ"; "ɔ"; "ʊ"; "ɑ"].

Lemma prefix_char (a : ascii) (v phone : string) :
  String.prefix (String a v) phone = true →
  ∃ rest, phone = String a rest ∧ String.prefix v rest = true.
Proof.
  destruct phone as [|b rest]; simpl; [discriminate|].
  destruct (ascii_dec a b) as [<-|]; [eauto|discriminate].
Qed.

(** No phone is both a front vowel and a back vowel. *)
Theorem front_back_exclusive (phone : string) :
  is_front_vowel phone && is_back_vowel phone = false.
Proof.
  apply not_true_is_false. rewrite andb_true_iff.
  unfold is_front_vowel, is_back_vowel. rewrite !existsb_exists.
  intros [(vf & Hvf & Hpf) (vb & Hvb & Hpb)].
  unfold front_vowels in Hvf. unfold back_vowels in Hvb. simpl in Hvf, Hvb.
  repeat (destruct Hvf as [<-|Hvf]); try done;
    apply prefix_char in Hpf as (rest & -> & Hpf);
    repeat (destruct Hvb as [<-|Hvb]); try done;
    apply prefix_char in Hpb as (rest' & [=] & _).
Qed.

(** A phone that the front or the back table recognises through an ASCII
    symbol is a vowel for [is_vowel]; the others start with one of the six
    symbols outside ASCII. *)
Theorem front_or_back_is_vowel (phone : string) :
  is_front_vowel phone = true ∨ is_back_vowel phone = true →
  is_vowel phone = Ok true ∨
  ∃ v, v ∈ ipa_vowels ∧ String.prefix v phone = true.
Proof.
  unfold is_front_vowel, is_back_vowel. rewrite !existsb_exists.
  intros [(v & Hv & Hp)|(v & Hv & Hp)].
  - unfold front_vowels in Hv. simpl in Hv.
    repeat (destruct Hv as [<-|Hv]); try done;
      first [ by (right; eexists; split; [|exact Hp]; unfold ipa_vowels; set_solver)
            | by (apply prefix_char in Hp as (rest & -> & _); left) ].
  - unfold back_vowels in Hv. simpl in Hv.
    repeat (destruct Hv as [<-|Hv]); try done;
      first [ by (right; eexists; split; [|exact Hp]; unfold ipa_vowels; set_solver)
            | by (apply prefix_char in Hp as (rest & -> & _); left) ].
Qed.

Lemma front_or_back_is_vowel_witness : is_vowel "o:" = Ok true.
Proof.
  destruct (front_or_back_is_vowel "o:" (or_intror eq_refl))
    as [H|(v & Hv & Hp)]; [exact H|reflexivity].
Defined.

(** The vowel symbols outside ASCII are front or back vowels, yet
    [is_vowel], which looks at the first character only and lists ASCII
    symbols only, answers false for every phone that starts with one. *)
Theorem ipa_vowels_are_not_vowels (v rest : string) :
  v ∈ ipa_vowels →
  is_vowel (v +:+ rest) = Ok false ∧
  is_front_vowel (v +:+ rest) || is_back_vowel (v +:+ rest) = true.
Proof.
  unfold ipa_vowels. intros Hv.
  repeat (apply elem_of_cons in Hv as [->|Hv]); [..|by apply elem_of_nil in Hv];
    (split; [reflexivity|destruct rest; vm_compute; reflexivity]).
Qed.

Lemma ipa_vowels_are_not_vowels_witness :
  is_vowel "ø" = Ok false ∧ is_front_vowel "ø" || is_back_vowel "ø" = true.
Proof.
  apply (ipa_vowels_are_not_vowels "ø" ""). unfold ipa_vowels. set_solver.
Defined.

(** ** The environment classifiers *)

Definition initial_labels : list string :=
  ["WordInitial"; "WordInitial_s_plus_stop"; "WordInitial_s_alone"].
Definition final_labels : list string :=
  ["WordFinal"; "WordFinal_AfterBackVowel"; "WordFinal_AfterFrontOrCons"].

(** [env_s_S] returns a label for every list and every integer index, in
    range or not: its only list access is guarded by the length test. *)
Theorem env_s_S_never_raises (phones : list string) (i : Z) :
  ∃ e, env_s_S phones i = Ok e ∧ e ∈ labels_s_S.
Proof.
  unfold env_s_S, labels_s_S.
  destruct (Z.eqb_spec i 0) as [->|Hi0].
  - destruct (Z.ltb_spec 1 (len phones)) as [Hlen|Hlen].
    + destruct (getitem_in_range phones (0 + 1)) as (next & -> & _); [lia|]. simpl.
      destruct (bool_decide _); eexists; (split; [reflexivity|set_solver]).
    + eexists; split; [reflexivity|set_solver].
  - destruct (i =? len phones - 1); eexists; (split; [reflexivity|set_solver]).
Qed.

Ltac label_in :=
  solve [ apply (bool_decide_unpack _); vm_compute; exact I ].
Ltac label_not_in H :=
  solve [ exfalso; revert H; apply (bool_decide_unpack _); vm_compute; exact I ].
Ltac label_position :=
  split; (split; intros H; [first [lia | label_not_in H] | first [label_in | exfalso; lia]]).

(** The label tells the position: whenever one of the three classifiers
    returns a label, it is an initial label exactly at index 0 and a final
    label exactly at the last index of a word of two phones or more. *)
Theorem label_tells_position (phones : list string) (i : Z) (e : string) :
  env_x_c phones i = Ok e ∨ env_s_S phones i = Ok e ∨ env_d_t phones i = Ok e →
  (e ∈ initial_labels ↔ i = 0) ∧
  (e ∈ final_labels ↔ i ≠ 0 ∧ i = len phones - 1).
Proof.
  intros [H|[H|H]].
  - unfold env_x_c in H.
    destruct (Z.eqb_spec i 0) as [->|Hi0]; [injection H as <-; label_position|].
    apply bind_Ok in H as (prev & _ & H).
    destruct (Z.eqb_spec i (len phones - 1)) as [Hl|Hl], (is_back_vowel prev);
      injection H as <-; label_position.
  - unfold env_s_S in H.
    destruct (Z.eqb_spec i 0) as [->|Hi0].
    + destruct (1 <? len phones).
      * apply bind_Ok in H as (next & _ & H).
        destruct (bool_decide _); injection H as <-; label_position.
      * injection H as <-; label_position.
    + destruct (Z.eqb_spec i (len phones - 1)) as [Hl|Hl];
        injection H as <-; label_position.
  - unfold env_d_t in H.
    destruct (Z.eqb_spec i 0) as [->|Hi0]; [injection H as <-; label_position|].
    destruct (Z.eqb_spec i (len phones - 1)) as [Hl|Hl];
      [injection H as <-; label_position|].
    apply bind_Ok in H as (l & _ & H). apply bind_Ok in H as (r & _ & H).
    apply bind_Ok in H as (lv & _ & H). apply bind_Ok in H as (both & _ & H).
    destruct both; injection H as <-; label_position.
Qed.

Lemma label_tells_position_witness :
  "WordFinal_AfterFrontOrCons" ∈ final_labels ↔ 1 ≠ 0 ∧ 1 = len ["I"; "C"] - 1.
Proof.
  apply (label_tells_position ["I"; "C"] 1 "WordFinal_AfterFrontOrCons").
  left. reflexivity.
Defined.

Lemma len_insert {A} (l : list A) (k : nat) (q : A) : len (<[k := q]> l) = len l.
Proof. unfold len. by rewrite length_insert. Qed.

Lemma getitem_insert_ne {A} (l : list A) (k : nat) (j : Z) (q : A) :
  0 ≤ j → Z.to_nat j ≠ k → getitem (<[k := q]> l) j = getitem l j.
Proof.
  intros Hj Hne. unfold getitem. rewrite len_insert.
  destruct (Z.ltb_spec j 0) as [?|_]; [lia|].
  by rewrite list_lookup_insert_ne.
Qed.

(** The classifiers never look at the phone they classify: replacing the
    phone at the classified index leaves the label unchanged. *)
Theorem label_ignores_the_phone (phones : list string) (i : Z) (q : string) :
  0 ≤ i →
  env_x_c (<[Z.to_nat i := q]> phones) i = env_x_c phones i ∧
  env_s_S (<[Z.to_nat i := q]> phones) i = env_s_S phones i ∧
  env_d_t (<[Z.to_nat i := q]> phones) i = env_d_t phones i.
Proof.
  intros Hi. unfold env_x_c, env_s_S, env_d_t. rewrite !len_insert.
  destruct (Z.eqb_spec i 0) as [->|Hi0].
  - split; [done|]. split; [|done].
    by rewrite getitem_insert_ne by (simpl; lia).
  - rewrite !getitem_insert_ne by lia. done.
Qed.

Lemma label_ignores_the_phone_witness :
  env_d_t (<[Z.to_nat 2 := "t"]> ["h"; "a"; "d"; "@"; "n"]) 2 =
  env_d_t ["h"; "a"; "d"; "@"; "n"] 2.
Proof.
  refine (proj2 (proj2 (label_ignores_the_phone ["h"; "a"; "d"; "@"; "n"] 2 "t" _))).
  lia.
Defined.

Lemma getitem_out_of_range {A} (l : list A) (i : Z) :
  len l ≤ i → getitem l i = Raise IndexError.
Proof.
  intros Hi. unfold getitem, len in *.
  destruct (Z.ltb_spec i 0) as [?|_]; [lia|].
  destruct (Z.ltb_spec i (Z.of_nat (length l))) as [?|_]; [lia|].
  by rewrite andb_false_r.
Qed.

(** One past the end of a non-empty word, an index no caller passes, the
    classifiers differ: [env_x_c] answers a medial label from the last
    phone, [env_s_S] answers [WordMedial], and [env_d_t] raises
    [IndexError]. *)
Theorem one_past_the_end (phones : list string) (p : string) :
  last phones = Some p →
  env_x_c phones (len phones) =
    Ok (if is_back_vowel p then "Medial_AfterBackVowel"
        else "Medial_AfterFrontOrCons") ∧
  env_s_S phones (len phones) = Ok "WordMedial" ∧
  env_d_t phones (len phones) = Raise IndexError.
Proof.
  intros Hlast.
  assert (Hlen : 0 < len phones).
  { unfold len. destruct phones; [done|simpl; lia]. }
  assert (Hget : getitem phones (len phones - 1) = Ok p).
  { destruct (getitem_in_range phones (len phones - 1)) as (a & Ha & Hl); [lia|].
    rewrite Ha. f_equal. rewrite last_lookup in Hlast.
    replace (Z.to_nat (len phones - 1)) with (Nat.pred (length phones)) in Hl
      by (unfold len; lia).
    congruence. }
  unfold env_x_c, env_s_S, env_d_t.
  destruct (Z.eqb_spec (len phones) 0) as [?|_]; [lia|].
  destruct (Z.eqb_spec (len phones) (len phones - 1)) as [?|_]; [lia|].
  rewrite Hget. simpl. split; [by destruct (is_back_vowel p)|]. split; [done|].
  by rewrite getitem_out_of_range by lia.
Qed.

Lemma one_past_the_end_witness :
  env_d_t ["h"; "a"; "d"] (len ["h"; "a"; "d"]) = Raise IndexError.
Proof.
  exact (proj2 (proj2 (one_past_the_end ["h"; "a"; "d"] "d" eq_refl))).
Defined.

(** ** When the scan raises *)

Lemma for_each_total {A B S} (I : list B → S → Prop) (g : A → list B)
    (body : S → A → res S) (l : list A) :
  (∀ log s a, a ∈ l → I log s → ∃ s', body s a = Ok s' ∧ I (log ++ g a) s') →
  ∀ log s, I log s → ∃ s', for_each l body s = Ok s' ∧ I (log ++ (l ≫= g)) s'.
Proof.
  induction l as [|a l IH]; intros Hbody log s Hs.
  - exists s. split; [done|]. by rewrite app_nil_r.
  - destruct (Hbody log s a (list_elem_of_here _ _) Hs) as (s1 & Hs1 & HI1).
    destruct (IH (λ log s b Hb, Hbody log s b (list_elem_of_further _ _ _ Hb))
                 _ _ HI1) as (s2 & Hs2 & HI2).
    exists s2. split; [simpl; rewrite Hs1; exact Hs2|].
    simpl. by rewrite <- app_assoc in HI2.
Qed.

Lemma for_each_Ok_body {A S} (l : list A) (body : S → A → res S) (s s' : S) :
  for_each l body s = Ok s' →
  ∀ a, a ∈ l → ∃ s1 s2, body s1 a = Ok s2.
Proof.
  revert s. induction l as [|b l IH]; intros s Hrun a Ha;
    [by apply elem_of_nil in Ha|].
  simpl in Hrun. apply bind_Ok in Hrun as (s1 & Hb & Hrun).
  apply elem_of_cons in Ha as [->|Ha]; [eauto|]. by eapply IH.
Qed.

(** The classifier returns at every occurrence of a target phone. *)
Definition classifies (phoneX phoneY : string)
    (env_function : list string → Z → res string) (df : list WordRecord) : Prop :=
  ∀ row i ph, row ∈ df →
    (i, ph) ∈ enumerate (phone_sequence (Phono row)) →
    ph = phoneX ∨ ph = phoneY →
    ∃ e, env_function (phone_sequence (Phono row)) i = Ok e.

Lemma scan_returns phoneX phoneY env_function df :
  classifies phoneX phoneY env_function df →
  ∃ c, scan phoneX phoneY env_function df = Ok c.
Proof.
  intros Hcl. unfold scan.
  destruct (for_each_total (scan_inv phoneX phoneY)
              (row_occurrences phoneX phoneY env_function)
              (scan_row phoneX phoneY env_function) df) with (log := @nil occurrence)
              (s := no_counts) as (c & Hc & _); [|apply scan_inv_init|by exists c].
  intros log s row Hrow Hs. unfold scan_row, row_occurrences.
  apply (for_each_total (scan_inv phoneX phoneY)); [|done].
  intros log' s' [i ph] Hin Hs'.
  pose proof (visit_ok phoneX phoneY env_function log' (Word row) (Frequency row)
                (phone_sequence (Phono row)) s' i ph Hs') as Hv.
  destruct (visit _ _ _ _ _ _ _ _) as [s''|err]; [eauto|].
  destruct Hv as (Hph & e & He).
  destruct (Hcl row i ph Hrow Hin Hph) as (e' & He'). congruence.
Qed.

Lemma scan_classifies phoneX phoneY env_function df c :
  scan phoneX phoneY env_function df = Ok c →
  classifies phoneX phoneY env_function df.
Proof.
  intros Hscan row i ph Hrow Hin Hph.
  destruct (for_each_Ok_body _ _ _ _ Hscan row Hrow) as (s1 & s2 & Hr).
  unfold scan_row in Hr.
  destruct (for_each_Ok_body _ _ _ _ Hr (i, ph) Hin) as (s3 & s4 & Hv).
  unfold visit in Hv.
  rewrite (proj2 (target_bool phoneX phoneY ph) Hph) in Hv.
  apply bind_Ok in Hv as (e & He & _). eauto.
Qed.

(** The scan returns exactly when the classifier returns at every
    occurrence of a target phone: no dict access of the scan ever fails. *)
Theorem scan_returns_iff phoneX phoneY env_function df :
  (∃ c, scan phoneX phoneY env_function df = Ok c) ↔
  classifies phoneX phoneY env_function df.
Proof.
  split; [intros (c & Hc); by eapply scan_classifies|apply scan_returns].
Qed.

Lemma phones_nonempty (cpsampa : string) :
  Forall (λ ph, ph ≠ "") (phone_sequence cpsampa).
Proof.
  unfold phone_sequence. apply Forall_forall. intros ph Hin.
  apply list_elem_of_filter in Hin as [Hne _]. by apply nonempty_true.
Qed.

Lemma enumerate_in_range {A} (l : list A) (i : Z) (a : A) :
  (i, a) ∈ enumerate l → 0 ≤ i < len l.
Proof.
  intros Hin. apply elem_of_enumerate_from in Hin as (_ & Hl & Hi).
  apply lookup_lt_Some in Hl. unfold len. lia.
Qed.

Lemma shipped_classifiers_classify phoneX phoneY df :
  classifies phoneX phoneY env_x_c df ∧
  classifies phoneX phoneY env_s_S df ∧
  classifies phoneX phoneY env_d_t df.
Proof.
  repeat split; intros row i ph Hrow Hin Hph;
    apply enumerate_in_range in Hin.
  - destruct (env_x_c_in_range _ _ Hin) as (e & He & _). eauto.
  - destruct (env_s_S_in_range _ _ Hin) as (e & He & _). eauto.
  - destruct (env_d_t_in_range _ _ (phones_nonempty _) Hin) as (e & He & _). eauto.
Qed.

(** With each of the three classifiers of the program, whatever the pair,
    [pprm_for_pair] returns a result on every data frame whose frequencies
    are non-negative: it raises no [IndexError], [KeyError], [ValueError] or
    [ZeroDivisionError], also when the pair does not occur. *)
Theorem pprm_for_pair_returns phoneX phoneY df :
  wf_dataset df →
  (∃ r, pprm_for_pair phoneX phoneY env_x_c df = Ok r) ∧
  (∃ r, pprm_for_pair phoneX phoneY env_s_S df = Ok r) ∧
  (∃ r, pprm_for_pair phoneX phoneY env_d_t df = Ok r).
Proof.
  intros Hwf.
  destruct (shipped_classifiers_classify phoneX phoneY df) as (Hx & Hs & Hd).
  repeat split.
  - destruct (scan_returns _ _ _ _ Hx) as (c & Hc).
    eexists. by apply (pprm_for_pair_after_scan _ _ _ _ c).
  - destruct (scan_returns _ _ _ _ Hs) as (c & Hc).
    eexists. by apply (pprm_for_pair_after_scan _ _ _ _ c).
  - destruct (scan_returns _ _ _ _ Hd) as (c & Hc).
    eexists. by apply (pprm_for_pair_after_scan _ _ _ _ c).
Qed.

Lemma pprm_for_pair_returns_witness :
  ∃ r, pprm_for_pair "d" "t" env_d_t haben_sagen = Ok r.
Proof.
  refine (proj2 (proj2 (pprm_for_pair_returns "d" "t" haben_sagen _))).
  repeat constructor; simpl; lia.
Defined.

(** ** The division by the total *)





(** ** The range of the entropies *)

Section entropy_range.

Local Open Scope R_scope.





End entropy_range.






(** ** What the result depends on *)

Lemma scan_type_positive phoneX phoneY env_function df c env :
  scan phoneX phoneY env_function df = Ok c →
  env ∈ dom (counts_type c) → 0 < combined phoneX phoneY (counts_type c) env.
Proof.
  intros Hscan Henv.
  destruct (scan_dom _ _ _ df c env Hscan) as [Hdom _].
  destruct (proj1 Hdom Henv) as (ph & row & Hph & Hrow & Hpos).
  assert (Hw : Word row ∈ contributing_words env_function env ph df).
  { unfold contributing_words. apply elem_of_list_to_set, list_elem_of_fmap.
    exists row. split; [done|]. by apply list_elem_of_filter. }
  assert (Hsize : size (contributing_words env_function env ph df) ≠ 0%nat).
  { apply size_non_empty_iff. set_solver. }
  unfold combined.
  destruct (scan_counts _ _ _ df c env phoneX Hscan (or_introl eq_refl)) as [HX _].
  destruct (scan_counts _ _ _ df c env phoneY Hscan (or_intror eq_refl)) as [HY _].
  destruct Hph as [->| ->]; lia.
Qed.

(** Every environment of the counts has a type entropy and a type weight;
    an environment has a token entropy and a token weight exactly when its
    combined token count is positive. *)
Theorem environments_with_entropy phoneX phoneY env_function df r :
  pprm_for_pair phoneX phoneY env_function df = Ok r →
  dom (env_type_entropies r) = dom (env_type_counts r) ∧
  dom (env_type_probs r) = dom (env_type_counts r) ∧
  dom (env_token_probs r) = dom (env_token_entropies r) ∧
  (∀ env, env ∈ dom (env_token_entropies r) ↔
          env ∈ dom (env_token_counts r) ∧
          0 < combined phoneX phoneY (env_token_counts r) env).
Proof.
  intros Hrun.
  destruct (pprm_for_pair_inv _ _ _ df r Hrun)
    as (c & Tt & Tk & Hscan & HTt & HTk & Hct & Hck & HT & HK & _ & _).
  destruct (scan_full_cells _ _ _ df c Hscan) as (Hdk & _ & _).
  rewrite Hct, Hck.
  pose proof (scheme_dom phoneX phoneY (counts_type c) Tt (keys (counts_type c))) as HdT.
  pose proof (scheme_dom phoneX phoneY (counts_token c) Tk (keys (counts_type c))) as HdK.
  simpl in HdT, HdK. rewrite <- HT in HdT. rewrite <- HK in HdK. simpl in HdT, HdK.
  assert (HE : dom (env_type_entropies r) = dom (counts_type c)).
  { apply set_eq. intros env. rewrite elem_of_dom.
    pose proof (proj1 (scheme_lookup phoneX phoneY (counts_type c) Tt
                         (keys (counts_type c)) ∅ ∅ env)) as Hl.
    rewrite <- HT in Hl. simpl in Hl. rewrite Hl.
    destruct (decide _) as [[Hk Hp]|Hno].
    - split; [intros _; by apply elem_of_keys|by eauto].
    - rewrite lookup_empty. split; [by intros [? ?]|]. intros Hin.
      exfalso. apply Hno. split; [by apply elem_of_keys|].
      by eapply scan_type_positive. }
  split; [done|]. split; [by rewrite <- HdT|]. split; [done|].
  intros env. rewrite elem_of_dom.
  pose proof (proj1 (scheme_lookup phoneX phoneY (counts_token c) Tk
                       (keys (counts_type c)) ∅ ∅ env)) as Hl.
  rewrite <- HK in Hl. simpl in Hl. rewrite Hl.
  destruct (decide _) as [[Hk Hp]|Hno].
  - split; [intros _|by eauto]. split; [|done].
    rewrite Hdk. by apply elem_of_keys.
  - rewrite lookup_empty. split; [by intros [? ?]|]. intros [Hin Hp].
    exfalso. apply Hno. split; [|done]. apply elem_of_keys. by rewrite <- Hdk.
Qed.

Lemma environments_with_entropy_witness :
  ∃ r, pprm_for_pair "x" "C" env_x_c ich = Ok r ∧
       dom (env_type_entropies r) = dom (env_type_counts r).
Proof.
  eexists. split; [apply pprm_for_pair_ich|].
  exact (proj1 (environments_with_entropy "x" "C" env_x_c ich _ pprm_for_pair_ich)).
Defined.

Lemma positions_label env_function env ph row :
  positions_of env_function env ph row ≠ [] →
  ∃ i, 0 ≤ i < len (phone_sequence (Phono row)) ∧
       env_function (phone_sequence (Phono row)) i = Ok env.
Proof.
  unfold positions_of.
  destruct (filter _ _) as [|[i p] l] eqn:E; [done|]. intros _.
  assert (Hin : (i, p) ∈ filter
            (λ ip, ip.2 = ph ∧ env_function (phone_sequence (Phono row)) ip.1 = Ok env)
            (enumerate (phone_sequence (Phono row)))) by (rewrite E; left).
  apply list_elem_of_filter in Hin as [[_ He] Hin].
  exists i. split; [by eapply enumerate_in_range|done].
Qed.

(** The environments of the counts are labels of the classifier in use: the
    scan with [env_x_c] creates none but its five labels, with [env_s_S]
    none but its four, with [env_d_t] none but its four. *)
Theorem environments_are_labels phoneX phoneY df :
  (∃ c, scan phoneX phoneY env_x_c df = Ok c ∧
        ∀ env, env ∈ dom (counts_type c) → env ∈ labels_x_c) ∧
  (∃ c, scan phoneX phoneY env_s_S df = Ok c ∧
        ∀ env, env ∈ dom (counts_type c) → env ∈ labels_s_S) ∧
  (∃ c, scan phoneX phoneY env_d_t df = Ok c ∧
        ∀ env, env ∈ dom (counts_type c) → env ∈ labels_d_t).
Proof.
  destruct (shipped_classifiers_classify phoneX phoneY df) as (Hx & Hs & Hd).
  repeat split.
  - destruct (scan_returns _ _ _ _ Hx) as (c & Hc). exists c. split; [done|].
    intros env Henv.
    destruct (proj1 (proj1 (scan_dom _ _ _ df c env Hc)) Henv)
      as (ph & row & _ & _ & Hpos).
    destruct (positions_label _ _ _ _ Hpos) as (i & Hi & He).
    destruct (env_x_c_in_range _ _ Hi) as (e & He' & Hl). congruence.
  - destruct (scan_returns _ _ _ _ Hs) as (c & Hc). exists c. split; [done|].
    intros env Henv.
    destruct (proj1 (proj1 (scan_dom _ _ _ df c env Hc)) Henv)
      as (ph & row & _ & _ & Hpos).
    destruct (positions_label _ _ _ _ Hpos) as (i & Hi & He).
    destruct (env_s_S_in_range _ _ Hi) as (e & He' & Hl). congruence.
  - destruct (scan_returns _ _ _ _ Hd) as (c & Hc). exists c. split; [done|].
    intros env Henv.
    destruct (proj1 (proj1 (scan_dom _ _ _ df c env Hc)) Henv)
      as (ph & row & _ & _ & Hpos).
    destruct (positions_label _ _ _ _ Hpos) as (i & Hi & He).
    destruct (env_d_t_in_range _ _ (phones_nonempty _) Hi) as (e & He' & Hl).
    congruence.
Qed.








Definition ich_ach : list WordRecord :=
  [ {| Word := "ich"; Phono := "I.C"; Frequency := 10 |};
    {| Word := "ach"; Phono := "a.x"; Frequency := 4 |} ].



(** ** One more row *)

(** Appending a row adds to a token count the frequency of the row once per
    qualifying position, and adds 1 to a type count exactly when the row
    has a qualifying position and its word has not contributed to the cell
    before: a second row of the same word, or a second occurrence in the
    same word, adds no type. *)
Theorem counts_after_one_more_row phoneX phoneY env_function df row c c' env ph :
  scan phoneX phoneY env_function df = Ok c →
  scan phoneX phoneY env_function (df ++ [row]) = Ok c' →
  ph = phoneX ∨ ph = phoneY →
  count_of (counts_type c') env ph =
    count_of (counts_type c) env ph +
    (if decide (positions_of env_function env ph row ≠ [] ∧
                Word row ∉ contributing_words env_function env ph df)
     then 1 else 0) ∧
  count_of (counts_token c') env ph =
    count_of (counts_token c) env ph +
    Frequency row * len (positions_of env_function env ph row).
Proof.
  intros Hc Hc' Hph.
  destruct (scan_counts _ _ _ df c env ph Hc Hph) as [-> ->].
  destruct (scan_counts _ _ _ (df ++ [row]) c' env ph Hc' Hph) as [-> ->].
  split.
  - unfold contributing_words. rewrite filter_app, fmap_app, list_to_set_app_L.
    rewrite filter_cons, filter_nil.
    fold (contributing_words env_function env ph df).
    destruct (decide (positions_of env_function env ph row ≠ [])) as [Hpos|Hpos].
    + change (list_to_set (Word <$> [row]) : gset string)
        with ({[Word row]} ∪ ∅ : gset string).
      rewrite union_empty_r_L.
      destruct (decide (Word row ∈ contributing_words env_function env ph df)) as [Hin|Hout].
      * rewrite decide_False by (intros [_ ?]; done).
        replace (contributing_words env_function env ph df ∪ {[Word row]})
          with (contributing_words env_function env ph df) by set_solver.
        lia.
      * rewrite decide_True by done.
        rewrite size_union by set_solver. rewrite size_singleton. lia.
    + rewrite decide_False by (intros [? _]; done).
      change (list_to_set (Word <$> []) : gset string) with (∅ : gset string).
      rewrite union_empty_r_L. lia.
  - unfold token_mass. rewrite fmap_app, sumZ_app.
    unfold sumZ at 2. simpl. lia.
Qed.

Lemma counts_after_one_more_row_witness :
  ∃ c c', scan "x" "C" env_x_c ich = Ok c ∧
          scan "x" "C" env_x_c (ich ++ ich) = Ok c' ∧
          count_of (counts_type c') "WordFinal_AfterFrontOrCons" "C" =
            count_of (counts_type c) "WordFinal_AfterFrontOrCons" "C" + 0 ∧
          count_of (counts_token c') "WordFinal_AfterFrontOrCons" "C" =
            count_of (counts_token c) "WordFinal_AfterFrontOrCons" "C" + 10 * 1.
Proof.
  assert (E : ∃ c', scan "x" "C" env_x_c (ich ++ ich) = Ok c')
    by (eexists; vm_compute; reflexivity).
  destruct E as [c' E]. exists ich_counts, c'.
  split; [exact scan_ich|]. split; [exact E|].
  exact (counts_after_one_more_row "x" "C" env_x_c ich _ ich_counts c'
           "WordFinal_AfterFrontOrCons" "C" scan_ich E (or_intror eq_refl)).
Defined.

(** ** A phone paired with itself *)





(** ** Every occurrence is counted once *)

(** The phones of a row that are one of the two phones of the pair. *)
Definition target_phones (phoneX phoneY : string) (row : WordRecord)
  : list string :=
  filter (λ ph, ph = phoneX ∨ ph = phoneY) (phone_sequence (Phono row)).

Lemma sumZ_add {A} (f g : A → Z) (l : list A) :
  sumZ ((λ a, f a + g a) <$> l) = sumZ (f <$> l) + sumZ (g <$> l).
Proof.
  induction l as [|a l IH]; [done|].
  rewrite !fmap_cons. unfold sumZ in *. cbn [foldr]. lia.
Qed.

Lemma sumZ_ext {A} (f g : A → Z) (l : list A) :
  (∀ a, a ∈ l → f a = g a) → sumZ (f <$> l) = sumZ (g <$> l).
Proof.
  induction l as [|a l IH]; intros Hfg; [done|].
  rewrite !fmap_cons. unfold sumZ in *. cbn [foldr].
  rewrite (Hfg a) by left. rewrite IH; [done|]. intros b Hb. apply Hfg. by right.
Qed.

Lemma sumZ_indicator (e : string) (v : Z) (ks : list string) :
  NoDup ks →
  sumZ ((λ env, if decide (e = env) then v else 0) <$> ks) =
  if decide (e ∈ ks) then v else 0.
Proof.
  induction 1 as [|k ks Hk Hnd IH]; [done|].
  rewrite fmap_cons. unfold sumZ in *. cbn [foldr]. rewrite IH.
  destruct (decide (e = k)) as [->|Hne].
  - rewrite (decide_False (P := k ∈ ks)) by done.
    rewrite decide_True by left. lia.
  - destruct (decide (e ∈ ks)) as [Hin|Hout].
    + rewrite decide_True by (by right). lia.
    + rewrite decide_False; [lia|]. intros [?|?]%elem_of_cons; done.
Qed.

Lemma tokens_partition (phoneX phoneY : string) (ks : list string)
    (log : list occurrence) :
  phoneX ≠ phoneY → NoDup ks →
  (∀ o, o ∈ log →
     occ_env o ∈ ks ∧ (occ_phone o = phoneX ∨ occ_phone o = phoneY)) →
  sumZ ((λ env, tokens_of (occurrences_in env phoneX log) +
                tokens_of (occurrences_in env phoneY log)) <$> ks) =
  tokens_of log.
Proof.
  intros Hxy Hnd. induction log as [|o log IH]; intros Hlog.
  - clear Hnd Hlog. induction ks as [|k ks IHk]; [done|].
    rewrite fmap_cons. unfold sumZ in *. cbn [foldr]. rewrite IHk. done.
  - destruct (Hlog o) as [Henv Hph]; [left|].
    rewrite (sumZ_ext _ (λ env,
               (tokens_of (occurrences_in env phoneX log) +
                tokens_of (occurrences_in env phoneY log)) +
               (if decide (occ_env o = env) then occ_freq o else 0))).
    + rewrite sumZ_add, IH by (intros o' Ho'; apply Hlog; by right).
      rewrite sumZ_indicator, decide_True by done.
      unfold tokens_of. rewrite fmap_cons. unfold sumZ. cbn [foldr]. lia.
    + intros env _. unfold occurrences_in. rewrite !filter_cons.
      destruct (decide (occ_env o = env)) as [He|He].
      * destruct Hph as [Hp|Hp].
        -- rewrite decide_True by done.
           rewrite (decide_False (P := occ_env o = env ∧ occ_phone o = phoneY))
             by (intros [_ ?]; congruence).
           unfold tokens_of. rewrite fmap_cons. unfold sumZ. cbn [foldr]. lia.
        -- rewrite (decide_False (P := occ_env o = env ∧ occ_phone o = phoneX))
             by (intros [_ ?]; congruence).
           rewrite decide_True by done.
           unfold tokens_of. rewrite fmap_cons. unfold sumZ. cbn [foldr]. lia.
      * rewrite !decide_False by (intros [? _]; done). lia.
Qed.

Lemma filter_enumerate_from (phoneX phoneY : string) (k : Z) (l : list string) :
  length (filter (λ ip : Z * string, ip.2 = phoneX ∨ ip.2 = phoneY)
            (enumerate_from k l)) =
  length (filter (λ ph, ph = phoneX ∨ ph = phoneY) l).
Proof.
  revert k. induction l as [|a l IH]; intros k; [done|].
  cbn [enumerate_from]. rewrite !filter_cons. cbn [snd].
  destruct (decide (a = phoneX ∨ a = phoneY)); simpl; by rewrite IH.
Qed.

Lemma tokens_of_positions phoneX phoneY env_function w f phones
    (l : list (Z * string)) :
  (∀ i ph, (i, ph) ∈ l → ph = phoneX ∨ ph = phoneY →
     ∃ e, env_function phones i = Ok e) →
  tokens_of (l ≫= occurrence_at phoneX phoneY env_function w f phones) =
  f * len (filter (λ ip : Z * string, ip.2 = phoneX ∨ ip.2 = phoneY) l).
Proof.
  induction l as [|[i ph] l IH]; intros Hcl.
  - unfold tokens_of, sumZ, len. simpl. lia.
  - rewrite bind_cons, tokens_of_app, IH
      by (intros j q Hin; apply Hcl; by right).
    rewrite filter_cons. cbn [snd]. unfold occurrence_at at 1. cbn [fst snd].
    destruct (decide (ph = phoneX ∨ ph = phoneY)) as [Hph|Hph].
    + rewrite (proj2 (target_bool phoneX phoneY ph) Hph).
      destruct (Hcl i ph) as (e & ->); [left|done|].
      unfold tokens_of, sumZ, len. simpl. lia.
    + destruct (bool_decide (ph = phoneX) || bool_decide (ph = phoneY)) eqn:E.
      * apply target_bool in E. done.
      * unfold tokens_of at 1, sumZ. simpl. lia.
Qed.

Lemma tokens_of_log phoneX phoneY env_function df :
  classifies phoneX phoneY env_function df →
  tokens_of (df_occurrences phoneX phoneY env_function df) =
  sumZ ((λ row, Frequency row * len (target_phones phoneX phoneY row)) <$> df).
Proof.
  induction df as [|row df IH]; intros Hcl; [done|].
  unfold df_occurrences in *. rewrite bind_cons, tokens_of_app, IH.
  - rewrite fmap_cons. unfold sumZ at 2. cbn [foldr]. fold sumZ.
    f_equal. unfold row_occurrences. rewrite tokens_of_positions.
    + unfold target_phones, len, enumerate.
      do 2 f_equal. apply filter_enumerate_from.
    + intros i ph Hin Hph. apply (Hcl row i ph); [left|done..].
  - intros r i ph Hr. apply Hcl. by right.
Qed.

(** For two distinct phones the total of the token counts is the sum, over
    the rows, of the frequency times the number of phones of the row that
    are one of the pair: whatever labels the classifier answers, every
    occurrence is counted in exactly one environment, and the loop that
    adds up the totals never fails. *)
Theorem total_tokens_count_every_occurrence phoneX phoneY env_function df c :
  phoneX ≠ phoneY →
  scan phoneX phoneY env_function df = Ok c →
  total_of phoneX phoneY (counts_token c) =
    Ok (sumZ ((λ row, Frequency row * len (target_phones phoneX phoneY row))
                <$> df)).
Proof.
  intros Hxy Hscan.
  destruct (scan_full_cells _ _ _ df c Hscan) as (Hdk & _ & HfK).
  rewrite (total_of_ok _ _ _ HfK). f_equal.
  pose proof (scan_ok _ _ _ df c Hscan) as [_ _ Hdom _ _ Htk].
  rewrite <- (tokens_of_log _ _ env_function) by (by eapply scan_classifies).
  rewrite <- (tokens_partition phoneX phoneY (keys (counts_token c))); [| done | apply NoDup_keys |].
  - apply sumZ_ext. intros env Henv.
    apply elem_of_keys in Henv. rewrite Hdk in Henv. unfold combined.
    rewrite (count_of_cell _ _ _ _ (Htk env phoneX Henv (or_introl eq_refl))).
    rewrite (count_of_cell _ _ _ _ (Htk env phoneY Henv (or_intror eq_refl))).
    done.
  - intros o Ho. split.
    + apply elem_of_keys. rewrite Hdk. apply Hdom. by exists o.
    + by eapply df_occurrences_target.
Qed.

Lemma total_tokens_count_every_occurrence_witness :
  ∃ c, scan "x" "C" env_x_c ich_ach = Ok c ∧
       total_of "x" "C" (counts_token c) = Ok 14.
Proof.
  assert (E : ∃ c, scan "x" "C" env_x_c ich_ach = Ok c)
    by (eexists; vm_compute; reflexivity).
  destruct E as [c E]. exists c. split; [exact E|].
  exact (total_tokens_count_every_occurrence "x" "C" env_x_c ich_ach c
           ltac:(discriminate) E).
Defined.
